(** * LockBlock back end: game engine, reward pool and room manager

    A shallow embedding of [src/services/lockBlock.js],
    [src/services/rewardPool.js] and [src/services/roomManager.js], and the
    properties of the specification that are about them.

    Conventions of the embedding.
    - A JavaScript number that holds an integer (lives, score, coordinates,
      counters, timestamps) is a [Z]; on the safe-integer range the
      JavaScript operations used here ([+], [-], [*], [Math.max], [<=]) are
      the integer ones.
    - A JavaScript number that holds a currency amount is an IEEE-754
      binary64 value, a [spec_float] with 53 bits of precision.
    - [Date.now()] is an input: every function that reads the clock takes
      the reading as its last argument [now].
    - A function that can raise an exception returns a [Completion]. *)

From Stdlib Require Import ZArith Bool Floats.SpecFloat.
From stdpp Require Import gmap strings list.

Local Open Scope string_scope.

(** ** Exceptions *)

Inductive JsError :=
| TypeError        (* property access on [undefined] *)
| InvalidArgument. (* raised by [ethers.getAddress] on a malformed address *)

Inductive Completion (A : Type) :=
| Normal (a : A)
| Throw (e : JsError).
Arguments Normal {A} a.
Arguments Throw {A} e.

(** ** The address canonicalizer of the [ethers] library

    [ethers.getAddress] is not part of the repository.  It is a parameter of
    the development: [None] stands for the exception it raises on a string
    it does not accept, [Some k] for the checksummed spelling [k]. *)

Class Ethers := { getAddress : string → option string }.

(** ** Currency amounts: decimal strings and binary64 numbers *)

Module Amount.

Definition prec : Z := 53.
Definition emax : Z := 1024.

Definition zero : spec_float := S754_zero false.
Definition add : spec_float → spec_float → spec_float := SFadd prec emax.
Definition leb : spec_float → spec_float → bool := SFleb.
Definition ltb : spec_float → spec_float → bool := SFltb.
Definition eqb : spec_float → spec_float → bool := SFeqb.

(** A decimal literal [digits * 10^-scale]: ['0.05'] is
    [{| digits := 5; scale := 2 |}], ['0'] is [{| digits := 0; scale := 0 |}]. *)
Record Decimal := { digits : Z; scale : nat }.

(** The strings that hold amounts.  They are either decimal literals,
    written by a caller or in the source, or the result of
    [Number.prototype.toString].  The second kind is kept as the number it
    prints: ECMAScript guarantees that [parseFloat] reads back exactly the
    number that [toString] printed. *)
Inductive NumericString :=
| Lit (d : Decimal)
| Str (x : spec_float).

(** Exact sum of two decimal literals. *)
Definition decimalAdd (a b : Decimal) : Decimal :=
  {| digits := digits a * 10 ^ Z.of_nat (scale b) + digits b * 10 ^ Z.of_nat (scale a);
     scale := scale a + scale b |}.

(** The binary64 number nearest to a decimal literal (ties to even), as
    [parseFloat] returns it. *)
Definition nearest (d : Decimal) : spec_float :=
  match digits d with
  | Z0 => S754_zero false
  | m =>
      let '(q, e, l) :=
        SFdiv_core_binary prec emax (Z.abs m) 0 (10 ^ Z.of_nat (scale d)) 0 in
      binary_round_aux prec emax (m <? 0)%Z q e l
  end.

Definition parseFloat (s : NumericString) : spec_float :=
  match s with
  | Lit d => nearest d
  | Str x => x
  end.

Definition toString (x : spec_float) : NumericString := Str x.

Definition lit (m : Z) (k : nat) : NumericString := Lit {| digits := m; scale := k |}.

End Amount.

(** ** The game engine, [src/services/lockBlock.js] *)

Module LockBlock.
Import Amount.

Record Position := { x : Z; y : Z }.

Record Player := {
  eoa : string;
  position : Position;
  lives : Z;
  score : Z
}.

Record Chunk := {
  id : Z;
  name : string;
  difficulty : Z;
  obstacles : list string;
  collectibles : list string;
  completed : bool
}.

Record PoolInfo := { totalAmount : NumericString }.

Record GameState := {
  player : Player;
  chunks : list Chunk;
  currentChunk : nat;
  isGameOver : bool;
  gameResult : option string;
  startTime : Z;
  endTime : option Z;
  rewardPool : PoolInfo;
  entryDeposit : NumericString
}.

(** [action.data]: every field may be absent. *)
Record ActionData := {
  direction : option string;
  distance : option Z;
  objectType : option string;
  value : option Z
}.

Record Action := { type : string; data : option ActionData }.

(** The objects [{ success: true, gameState }] and [{ success: false, error }]. *)
Inductive ActionResult :=
| Success (gameState : GameState)
| Failure (error : string).

(** Object spread with one field replaced. *)
Definition withPlayer (gs : GameState) (p : Player) : GameState :=
  {| player := p; chunks := chunks gs; currentChunk := currentChunk gs;
     isGameOver := isGameOver gs; gameResult := gameResult gs;
     startTime := startTime gs; endTime := endTime gs;
     rewardPool := rewardPool gs; entryDeposit := entryDeposit gs |}.

Definition withChunks (gs : GameState) (cs : list Chunk) : GameState :=
  {| player := player gs; chunks := cs; currentChunk := currentChunk gs;
     isGameOver := isGameOver gs; gameResult := gameResult gs;
     startTime := startTime gs; endTime := endTime gs;
     rewardPool := rewardPool gs; entryDeposit := entryDeposit gs |}.

Definition withCurrentChunk (gs : GameState) (i : nat) : GameState :=
  {| player := player gs; chunks := chunks gs; currentChunk := i;
     isGameOver := isGameOver gs; gameResult := gameResult gs;
     startTime := startTime gs; endTime := endTime gs;
     rewardPool := rewardPool gs; entryDeposit := entryDeposit gs |}.

Definition withPosition (p : Player) (pos : Position) : Player :=
  {| eoa := eoa p; position := pos; lives := lives p; score := score p |}.

Definition withScore (p : Player) (n : Z) : Player :=
  {| eoa := eoa p; position := position p; lives := lives p; score := n |}.

Definition withCompleted (c : Chunk) (b : bool) : Chunk :=
  {| id := id c; name := name c; difficulty := difficulty c;
     obstacles := obstacles c; collectibles := collectibles c; completed := b |}.

Definition generateInitialChunks : list Chunk :=
  [ {| id := 0; name := "Tutorial Chunk"; difficulty := 1;
       obstacles := ["pit"; "spike"];
       collectibles := ["coin"; "powerup"];
       completed := false |};
    {| id := 1; name := "Forest Chunk"; difficulty := 2;
       obstacles := ["pit"; "spike"; "enemy"];
       collectibles := ["coin"; "gem"];
       completed := false |};
    {| id := 2; name := "Mountain Chunk"; difficulty := 3;
       obstacles := ["pit"; "spike"; "enemy"; "moving_platform"];
       collectibles := ["coin"; "gem"; "treasure"];
       completed := false |} ].

Definition processMovement (gameState : GameState) (moveData : option ActionData)
  : Completion GameState :=
  match moveData with
  | None => Throw TypeError
  | Some md =>
      let distance := default 1%Z (distance md) in
      let pos := position (player gameState) in
      let dir := default "" (direction md) in
      let newPosition :=
        if String.eqb dir "left" then
          {| x := Z.max 0 (x pos - distance); y := y pos |}
        else if String.eqb dir "right" then
          {| x := x pos + distance; y := y pos |}
        else if String.eqb dir "up" then
          {| x := x pos; y := Z.max 0 (y pos - distance) |}
        else if String.eqb dir "down" then
          {| x := x pos; y := y pos + distance |}
        else pos in
      Normal (withPlayer gameState (withPosition (player gameState) newPosition))
  end.

Definition processJump (gameState : GameState) (jumpData : option ActionData)
  : Completion GameState :=
  processMovement gameState
    (Some {| direction := Some "up"; distance := Some 2%Z;
             objectType := None; value := None |}).

(** [processInteraction] and [processChunkCompletion] copy the top-level
    object only: the [player] object and the chunk objects are shared
    with the argument, and both functions write to them.  They return the
    new state together with the contents of their argument after the
    call. *)
Definition processInteraction (gameState : GameState) (interactionData : option ActionData)
  : Completion (GameState * GameState) :=
  match interactionData with
  | None => Throw TypeError
  | Some d =>
      let value := default 10%Z (value d) in
      let ty := default "" (objectType d) in
      let p := player gameState in
      let p' :=
        if String.eqb ty "coin" then withScore p (score p + value)
        else if String.eqb ty "gem" then withScore p (score p + value * 2)
        else if String.eqb ty "treasure" then withScore p (score p + value * 5)
        else if String.eqb ty "powerup" then withScore p (score p + value)
        else p in
      Normal (withPlayer gameState p', withPlayer gameState p')
  end.

Definition processChunkCompletion (gameState : GameState)
  : Completion (GameState * GameState) :=
  match chunks gameState !! currentChunk gameState with
  | None => Throw TypeError
  | Some c =>
      let updatedChunks :=
        <[currentChunk gameState := withCompleted c true]> (chunks gameState) in
      let nextChunk := (currentChunk gameState + 1)%nat in
      let isGameComplete := (length updatedChunks <=? nextChunk)%nat in
      let p := player gameState in
      Normal
        (withPlayer
           (withCurrentChunk (withChunks gameState updatedChunks)
              (if isGameComplete then currentChunk gameState else nextChunk))
           (withScore p (score p + 100)),
         withChunks gameState updatedChunks)
  end.

Definition processLifeLoss (gameState : GameState) : GameState :=
  let p := player gameState in
  withPlayer gameState
    {| eoa := eoa p; position := {| x := 0; y := 0 |};
       lives := Z.max 0 (lives p - 1); score := score p |}.

Definition checkGameOverConditions (gameState : GameState) (now : Z) : GameState :=
  let isGameOver0 := false in
  let gameResult0 : option string := None in
  let '(isGameOver1, gameResult1) :=
    if (lives (player gameState) <=? 0)%Z then (true, Some "lose")
    else (isGameOver0, gameResult0) in
  let allChunksCompleted := forallb completed (chunks gameState) in
  let '(isGameOver2, gameResult2) :=
    if allChunksCompleted then (true, Some "win")
    else (isGameOver1, gameResult1) in
  let endTime' := if isGameOver2 then Some now else None in
  {| player := player gameState; chunks := chunks gameState;
     currentChunk := currentChunk gameState;
     isGameOver := isGameOver2; gameResult := gameResult2;
     startTime := startTime gameState; endTime := endTime';
     rewardPool := rewardPool gameState; entryDeposit := entryDeposit gameState |}.

(** The [switch (action.type)] of [processAction]: the state the selected
    case assigns to [updatedGameState], paired with the contents of the
    caller's object after the case ran.  [None] is the [default] case. *)
Definition dispatch (gameState : GameState) (action : Action)
  : option (Completion (GameState * GameState)) :=
  let unshared (r : Completion GameState) :=
    match r with
    | Throw e => Throw e
    | Normal updatedGameState => Normal (updatedGameState, gameState)
    end in
  if String.eqb (type action) "move" then
    Some (unshared (processMovement gameState (data action)))
  else if String.eqb (type action) "jump" then
    Some (unshared (processJump gameState (data action)))
  else if String.eqb (type action) "interact" then
    Some (processInteraction gameState (data action))
  else if String.eqb (type action) "complete_chunk" then
    Some (processChunkCompletion gameState)
  else if String.eqb (type action) "lose_life" then
    Some (Normal (processLifeLoss gameState, gameState))
  else None.

Section Engine.
Context `{Ethers}.

Definition createGame (playerEoa : string)
    (entryDeposit currentPoolAmount : option NumericString) (now : Z)
  : Completion GameState :=
  match getAddress playerEoa with
  | None => Throw InvalidArgument
  | Some formattedPlayerEoa =>
      Normal
        {| player := {| eoa := formattedPlayerEoa;
                        position := {| x := 0; y := 0 |};
                        lives := 3; score := 0 |};
           chunks := generateInitialChunks;
           currentChunk := 0;
           isGameOver := false;
           gameResult := None;
           startTime := now;
           endTime := None;
           rewardPool := {| totalAmount := default (lit 0 0) currentPoolAmount |};
           entryDeposit := default (lit 1 2) entryDeposit |}
  end.

(** [processAction gameState action playerEoa now] is the pair of what
    the call returns and the contents of the caller's [gameState]
    object after the call. *)
Definition processAction (gameState : GameState) (action : Action)
    (playerEoa : string) (now : Z)
  : Completion ActionResult * GameState :=
  match getAddress playerEoa with
  | None => (Throw InvalidArgument, gameState)
  | Some formattedPlayerEoa =>
      if isGameOver gameState then
        (Normal (Failure "Game is already over"), gameState)
      else if negb (String.eqb (eoa (player gameState)) formattedPlayerEoa) then
        (Normal (Failure "Not your game"), gameState)
      else
        match dispatch gameState action with
        | None => (Normal (Failure "Invalid action type"), gameState)
        | Some (Throw e) => (Throw e, gameState)
        | Some (Normal (updatedGameState, argument)) =>
            (Normal (Success (checkGameOverConditions updatedGameState now)),
             argument)
        end
  end.

(** A sequence of actions of one player: each action is applied to the
    state the previous one returned, the first rejected action or
    exception ends the run.  All calls read the clock value [now], which
    only stamps [endTime]. *)
Fixpoint run (gameState : GameState) (actions : list Action)
    (playerEoa : string) (now : Z) : Completion ActionResult :=
  match actions with
  | [] => Normal (Success gameState)
  | a :: rest =>
      match fst (processAction gameState a playerEoa now) with
      | Normal (Success gs') => run gs' rest playerEoa now
      | other => other
      end
  end.

End Engine.

(** *** States met in the proofs *)

(** [currentChunk] is an index of [chunks]. *)
Definition indexInRange (gs : GameState) : Prop :=
  (currentChunk gs < length (chunks gs))%nat.


(** The chunks of a new game once the first [n] are completed. *)
Definition progress (n : nat) : list Chunk :=
  map (λ c, withCompleted c true) (take n generateInitialChunks)
  ++ drop n generateInitialChunks.

(** A game of [k] that has completed [n] chunks and lost no life. *)
Definition midGame (k : string) (n : nat) (gs : GameState) : Prop :=
  eoa (player gs) = k
  ∧ lives (player gs) = 3%Z
  ∧ isGameOver gs = false
  ∧ gameResult gs = None
  ∧ currentChunk gs = n
  ∧ chunks gs = progress n.

End LockBlock.

(** ** The reward pool, [src/services/rewardPool.js] *)

Module RewardPool.
Import Amount.

(** The module-level object [globalRewardPool]. *)
Record Pool := {
  totalAmount : NumericString;
  totalGames : Z;
  totalWins : Z;
  totalLosses : Z;
  lastUpdated : Z
}.

(** The value [globalRewardPool] is initialised with when the module is
    loaded at time [now]. *)
Definition initialPool (now : Z) : Pool :=
  {| totalAmount := lit 0 0; totalGames := 0; totalWins := 0;
     totalLosses := 0; lastUpdated := now |}.

Definition getRewardPool (pool : Pool) : Pool := pool.

Inductive AddResult :=
| Added (newTotal addedAmount : NumericString)
| AddFailed (error : string).

Inductive WithdrawResult :=
| Withdrawn (withdrawnAmount newTotal : NumericString)
| WithdrawFailed (error : string) (withdrawnAmount : NumericString).

Inductive ResetResult :=
| ResetDone (previousAmount : NumericString) (message : string).

(** The [message] of a successful validation quotes the amount and is
    read by no caller; it is left out. *)
Inductive ValidationResult :=
| Valid
| Invalid (error : string).

Definition addToRewardPool (amount : NumericString) (playerEoa : string)
    (pool : Pool) (now : Z) : AddResult * Pool :=
  let currentAmount := parseFloat (totalAmount pool) in
  let addAmount := parseFloat amount in
  let pool' :=
    {| totalAmount := toString (add currentAmount addAmount);
       totalGames := totalGames pool + 1;
       totalWins := totalWins pool;
       totalLosses := totalLosses pool + 1;
       lastUpdated := now |} in
  (Added (totalAmount pool') amount, pool').

Definition withdrawFromRewardPool (playerEoa : string) (pool : Pool) (now : Z)
  : WithdrawResult * Pool :=
  let currentAmount := parseFloat (totalAmount pool) in
  if leb currentAmount zero then
    (WithdrawFailed "No funds available in reward pool" (lit 0 0), pool)
  else
    let withdrawnAmount := totalAmount pool in
    let pool' :=
      {| totalAmount := lit 0 0;
         totalGames := totalGames pool + 1;
         totalWins := totalWins pool + 1;
         totalLosses := totalLosses pool;
         lastUpdated := now |} in
    (Withdrawn withdrawnAmount (lit 0 0), pool').

Definition resetRewardPool (adminEoa : string) (pool : Pool) (now : Z)
  : ResetResult * Pool :=
  let previousAmount := totalAmount pool in
  (ResetDone previousAmount "Reward pool has been reset",
   {| totalAmount := lit 0 0; totalGames := 0; totalWins := 0;
      totalLosses := 0; lastUpdated := now |}).

Definition validateEntryDeposit (playerEoa : string) (entryDeposit : NumericString)
  : ValidationResult :=
  let depositAmount := parseFloat entryDeposit in
  if ltb depositAmount zero then Invalid "Invalid entry deposit amount"
  else if eqb depositAmount zero then Valid
  else Valid.

Record RewardInfo := {
  currentPoolAmount : NumericString;
  entryDeposit : NumericString;
  potentialWinAmount : NumericString;
  riskAmount : NumericString;
  poolAfterLoss : NumericString
}.

Definition calculatePotentialReward (entryDeposit : NumericString) (pool : Pool)
  : RewardInfo :=
  let currentPool := parseFloat (totalAmount pool) in
  let deposit := parseFloat entryDeposit in
  {| currentPoolAmount := totalAmount pool;
     entryDeposit := entryDeposit;
     potentialWinAmount := totalAmount pool;
     riskAmount := entryDeposit;
     poolAfterLoss := toString (add currentPool deposit) |}.

(** The operations that change the pool, and the pools that a sequence of
    them builds from the initial one. *)
Inductive Operation :=
| Deposit (amount : NumericString) (playerEoa : string)
| Withdraw (playerEoa : string)
| Reset (adminEoa : string).

Definition perform (op : Operation) (pool : Pool) (now : Z) : Pool :=
  match op with
  | Deposit amount playerEoa => snd (addToRewardPool amount playerEoa pool now)
  | Withdraw playerEoa => snd (withdrawFromRewardPool playerEoa pool now)
  | Reset adminEoa => snd (resetRewardPool adminEoa pool now)
  end.

Inductive reachable : Pool → Prop :=
| reachable_initial now : reachable (initialPool now)
| reachable_perform op pool now : reachable pool → reachable (perform op pool now).

(** The counters of a pool add up. *)
Definition balanced (pool : Pool) : Prop :=
  (totalGames pool = totalWins pool + totalLosses pool)%Z.

(** A losing game followed by a winning one: the deposit of the loser is
    paid out to the winner.  [cycles] runs one such pair for every amount
    of the list and collects what the winners received. *)
Fixpoint cycles (amounts : list NumericString) (playerEoa : string)
    (pool : Pool) (now : Z) : list WithdrawResult * Pool :=
  match amounts with
  | [] => ([], pool)
  | amount :: rest =>
      let pool1 := snd (addToRewardPool amount playerEoa pool now) in
      let '(r, pool2) := withdrawFromRewardPool playerEoa pool1 now in
      let '(rs, pool3) := cycles rest playerEoa pool2 now in
      (r :: rs, pool3)
  end.

End RewardPool.

(** ** The room manager, [src/services/roomManager.js] *)

Module RoomManager.
Import Amount.

(** A WebSocket is an opaque handle. *)
Definition WebSocket := nat.

Record Connection := { ws : WebSocket; role : string }.

Record RoomPlayer := { eoa : option string; entryDeposit : NumericString }.

Record Room := {
  id : string;
  player : RoomPlayer;
  connections : gmap string Connection;
  gameState : option LockBlock.GameState;
  isReady : bool;
  gameStarted : bool;
  difficulty : string;
  rewardInfo : RewardPool.RewardInfo;
  createdAt : Z
}.

(** The two maps closed over by [createRoomManager]. *)
Record Manager := {
  rooms : gmap string Room;
  addressToRoom : gmap string string
}.

Definition createRoomManager : Manager := {| rooms := ∅; addressToRoom := ∅ |}.

Record JoinInfo := {
  joinedRoomId : string;
  joinedRole : string;
  isRoomReady : bool;
  joinedEntryDeposit : NumericString;
  joinedRewardInfo : RewardPool.RewardInfo
}.

Inductive JoinResult :=
| Joined (info : JoinInfo)
| JoinFailed (error : string).

(** Truthiness of [room.player.eoa]: [null] and the empty string are falsy. *)
Definition truthy (s : option string) : bool :=
  match s with
  | Some s => negb (String.eqb s "")
  | None => false
  end.

(** [createRoom]; [roomId] is the value [uuidv4()] returned. *)
Definition createRoom (entryDeposit : option NumericString) (difficulty : option string)
    (roomId : string) (pool : RewardPool.Pool) (now : Z) (m : Manager)
  : string * Manager :=
  let entryDeposit := default (lit 1 2) entryDeposit in
  let difficulty := default "normal" difficulty in
  (roomId,
   {| rooms :=
        <[roomId :=
            {| id := roomId;
               player := {| eoa := None; entryDeposit := entryDeposit |};
               connections := ∅;
               gameState := None;
               isReady := false;
               gameStarted := false;
               difficulty := difficulty;
               rewardInfo := RewardPool.calculatePotentialReward entryDeposit pool;
               createdAt := now |}]> (rooms m);
      addressToRoom := addressToRoom m |}).

Section Manager.
Context `{Ethers}.

Definition joinRoom (roomId eoa0 : string) (ws0 : WebSocket) (m : Manager)
  : Completion JoinResult * Manager :=
  match getAddress eoa0 with
  | None => (Throw InvalidArgument, m)
  | Some formattedEoa =>
      if bool_decide (is_Some (addressToRoom m !! formattedEoa)) then
        (Normal (JoinFailed "Player already in another room"), m)
      else
        match rooms m !! roomId with
        | None => (Normal (JoinFailed "Room not found"), m)
        | Some room =>
            if truthy (eoa (player room)) then
              (Normal (JoinFailed "Room is already occupied"), m)
            else
              match RewardPool.validateEntryDeposit formattedEoa
                      (entryDeposit (player room)) with
              | RewardPool.Invalid error => (Normal (JoinFailed error), m)
              | RewardPool.Valid =>
                  let room' :=
                    {| id := id room;
                       player := {| eoa := Some formattedEoa;
                                    entryDeposit := entryDeposit (player room) |};
                       connections :=
                         <[formattedEoa := {| ws := ws0; role := "player" |}]>
                           (connections room);
                       gameState := gameState room;
                       isReady := true;
                       gameStarted := gameStarted room;
                       difficulty := difficulty room;
                       rewardInfo := rewardInfo room;
                       createdAt := createdAt room |} in
                  (Normal (Joined
                     {| joinedRoomId := roomId;
                        joinedRole := "player";
                        isRoomReady := true;
                        joinedEntryDeposit := entryDeposit (player room);
                        joinedRewardInfo := rewardInfo room |}),
                   {| rooms := <[roomId := room']> (rooms m);
                      addressToRoom := <[formattedEoa := roomId]> (addressToRoom m) |})
              end
        end
  end.

End Manager.

End RoomManager.

(** ** The actions a client sends, as [test_client.js] builds them *)

Module Client.
Import LockBlock.

Local Open Scope Z_scope.

Definition noData : ActionData :=
  {| direction := None; distance := None; objectType := None; value := None |}.

Definition move (m : string * Z) : Action :=
  {| type := "move";
     data := Some {| direction := Some (fst m); distance := Some (snd m);
                     objectType := None; value := None |} |}.

Definition interact (ty : string) (v : Z) : Action :=
  {| type := "interact";
     data := Some {| direction := None; distance := None;
                     objectType := Some ty; value := Some v |} |}.

Definition completeChunk : Action := {| type := "complete_chunk"; data := Some noData |}.

Definition loseLife : Action := {| type := "lose_life"; data := Some noData |}.




(** The actions other than lose_life that the engine carries out: a move
    and an interaction need their [data] object. *)
Definition playable (a : Action) : Prop :=
  (type a = "move" ∧ is_Some (data a))
  ∨ type a = "jump"
  ∨ (type a = "interact" ∧ is_Some (data a))
  ∨ type a = "complete_chunk".

(** How many complete_chunk actions a sequence holds. *)
Fixpoint completions (actions : list Action) : nat :=
  match actions with
  | [] => 0
  | a :: rest =>
      ((if String.eqb (type a) "complete_chunk" then 1 else 0) + completions rest)%nat
  end.

End Client.

(** ** Sample data for the examples *)

Module Sample.
Import Amount.

Definition foldChar (c : Ascii.ascii) : Ascii.ascii :=
  let n := Ascii.nat_of_ascii c in
  if ((65 <=? n) && (n <=? 90))%nat then Ascii.ascii_of_nat (n + 32) else c.

Fixpoint foldCase (s : string) : string :=
  match s with
  | EmptyString => EmptyString
  | String c rest => String (foldChar c) (foldCase rest)
  end.

(** A canonicalizer to evaluate the definitions with: it accepts the
    strings of 42 characters and spells them in lower case.  It takes the
    place of the checksum spelling of [ethers] in the examples only. *)
Definition ethers : Ethers :=
  {| getAddress := λ a,
       if (String.length a =? 42)%nat then Some (foldCase a) else None |}.

Definition alice : string := "0xd8dA6BF26964aF9D7eEd9e03E53415D37aA96045".
Definition aliceKey : string := "0xd8da6bf26964af9d7eed9e03e53415d37aa96045".
Definition bob : string := "0x1111111111111111111111111111111111111111".

(** The state [createGame] returns for [alice] at time 0. *)
Definition freshGame : LockBlock.GameState :=
  {| LockBlock.player :=
       {| LockBlock.eoa := aliceKey;
          LockBlock.position := {| LockBlock.x := 0; LockBlock.y := 0 |};
          LockBlock.lives := 3; LockBlock.score := 0 |};
     LockBlock.chunks := LockBlock.generateInitialChunks;
     LockBlock.currentChunk := 0;
     LockBlock.isGameOver := false;
     LockBlock.gameResult := None;
     LockBlock.startTime := 0;
     LockBlock.endTime := None;
     LockBlock.rewardPool := {| LockBlock.totalAmount := lit 0 0 |};
     LockBlock.entryDeposit := lit 1 2 |}.

(** A state that is not flagged as over although no life is left: the
    first two chunks are completed and the third is the current one. *)
Definition noLivesLastChunk : LockBlock.GameState :=
  {| LockBlock.player :=
       {| LockBlock.eoa := aliceKey;
          LockBlock.position := {| LockBlock.x := 0; LockBlock.y := 0 |};
          LockBlock.lives := 0; LockBlock.score := 200 |};
     LockBlock.chunks :=
       map (λ c, LockBlock.withCompleted c true)
         (take 2 LockBlock.generateInitialChunks)
       ++ drop 2 LockBlock.generateInitialChunks;
     LockBlock.currentChunk := 2;
     LockBlock.isGameOver := false;
     LockBlock.gameResult := None;
     LockBlock.startTime := 0;
     LockBlock.endTime := None;
     LockBlock.rewardPool := {| LockBlock.totalAmount := lit 0 0 |};
     LockBlock.entryDeposit := lit 1 2 |}.

(** A game that ended with the loss of the last life at time 5. *)
Definition lostGame : LockBlock.GameState :=
  {| LockBlock.player :=
       {| LockBlock.eoa := aliceKey;
          LockBlock.position := {| LockBlock.x := 0; LockBlock.y := 0 |};
          LockBlock.lives := 0; LockBlock.score := 10 |};
     LockBlock.chunks := LockBlock.generateInitialChunks;
     LockBlock.currentChunk := 0;
     LockBlock.isGameOver := true;
     LockBlock.gameResult := Some "lose";
     LockBlock.startTime := 0;
     LockBlock.endTime := Some 5%Z;
     LockBlock.rewardPool := {| LockBlock.totalAmount := lit 0 0 |};
     LockBlock.entryDeposit := lit 1 2 |}.



(** The pool after a first loser paid '0.1'. *)
Definition poolWithTenth : RewardPool.Pool :=
  snd (RewardPool.addToRewardPool (lit 1 1) alice (RewardPool.initialPool 0) 1).

(** A manager with two empty rooms, created on an empty pool. *)
Definition twoRooms : RoomManager.Manager :=
  snd (RoomManager.createRoom (Some (lit 5 2)) None "room-2"
         (RewardPool.initialPool 0) 2
         (snd (RoomManager.createRoom None None "room-1"
                 (RewardPool.initialPool 0) 1 RoomManager.createRoomManager))).

End Sample.

(** ** The messages of [src/services/lockBlock.js] *)

Module LockBlockFormat.
Import Amount LockBlock.

Record FormattedState := {
  roomId : string;
  formattedPlayer : Player;
  formattedChunks : list Chunk;
  formattedCurrentChunk : nat;
  formattedIsGameOver : bool;
  formattedGameResult : option string;
  formattedRewardPool : PoolInfo;
  formattedEntryDeposit : NumericString
}.

Definition formatGameState (gameState : GameState) (roomId : string) : FormattedState :=
  {| roomId := roomId;
     formattedPlayer := player gameState;
     formattedChunks := chunks gameState;
     formattedCurrentChunk := currentChunk gameState;
     formattedIsGameOver := isGameOver gameState;
     formattedGameResult := gameResult gameState;
     formattedRewardPool := rewardPool gameState;
     formattedEntryDeposit := entryDeposit gameState |}.

(** The string [poolChange]: the literal ['0'], or a sign written in front
    of an amount by a template string. *)
Inductive PoolChange :=
| Unsigned (amount : NumericString)
| Signed (sign : string) (amount : NumericString).

Record GameOverMessage := {
  messageGameResult : option string;
  playerScore : Z;
  rewardAmount : NumericString;
  poolChange : PoolChange;
  newPoolAmount : NumericString
}.

(** [gameResult === r] *)
Definition resultIs (gameResult : option string) (r : string) : bool :=
  match gameResult with
  | Some g => String.eqb g r
  | None => false
  end.

Definition formatGameOverMessage (gameState : GameState) : GameOverMessage :=
  let total := totalAmount (rewardPool gameState) in
  let '(rewardAmount, poolChange) :=
    if resultIs (gameResult gameState) "win" then (total, Signed "-" total)
    else if resultIs (gameResult gameState) "lose" then
      (lit 0 0, Signed "+" (entryDeposit gameState))
    else (lit 0 0, Unsigned (lit 0 0)) in
  {| messageGameResult := gameResult gameState;
     playerScore := score (player gameState);
     rewardAmount := rewardAmount;
     poolChange := poolChange;
     newPoolAmount :=
       if resultIs (gameResult gameState) "win" then lit 0 0
       else toString (add (parseFloat total) (parseFloat (entryDeposit gameState))) |}.

End LockBlockFormat.

(** ** Reading the ledger *)

Module Ledger.
Import Amount RewardPool.

(** The counters of a pool are not negative. *)
Definition counted (pool : Pool) : Prop :=
  (0 <= totalWins pool ∧ 0 <= totalLosses pool ∧ 0 <= totalGames pool)%Z.

(** The deposits of a sequence of operations. *)
Fixpoint deposits (ops : list (Operation * Z)) : Z :=
  match ops with
  | [] => 0
  | (Deposit _ _, _) :: rest => 1 + deposits rest
  | _ :: rest => deposits rest
  end.

(** The withdrawals asked for in a sequence of operations. *)
Fixpoint withdrawals (ops : list (Operation * Z)) : Z :=
  match ops with
  | [] => 0
  | (Withdraw _, _) :: rest => 1 + withdrawals rest
  | _ :: rest => withdrawals rest
  end.

Definition isReset (op : Operation * Z) : bool :=
  match fst op with
  | Reset _ => true
  | _ => false
  end.

(** A sequence of operations, each with the time it runs at. *)
Fixpoint performAll (ops : list (Operation * Z)) (pool : Pool) : Pool :=
  match ops with
  | [] => pool
  | (op, now) :: rest => performAll rest (perform op pool now)
  end.

End Ledger.

(** ** The other operations of [src/services/roomManager.js] *)

Module RoomOps.
Import Amount RoomManager.

Inductive PlayerActionResult :=
| Played (gameState : LockBlock.GameState) (isGameOver : bool)
    (gameResult : option string)
| PlayFailed (error : string).

Inductive LeaveResult :=
| Left (roomId : string)
| LeaveFailed (error : string).

Definition withGameState (room : Room) (gs : option LockBlock.GameState) : Room :=
  {| id := id room; player := player room; connections := connections room;
     gameState := gs; isReady := isReady room; gameStarted := gameStarted room;
     difficulty := difficulty room; rewardInfo := rewardInfo room;
     createdAt := createdAt room |}.

(** The room a successful [joinRoom] leaves behind. *)
Definition joinedRoom (room : Room) (k : string) (ws0 : WebSocket) : Room :=
  {| id := id room;
     player := {| eoa := Some k; entryDeposit := entryDeposit (player room) |};
     connections := <[k := {| ws := ws0; role := "player" |}]> (connections room);
     gameState := gameState room;
     isReady := true;
     gameStarted := gameStarted room;
     difficulty := difficulty room;
     rewardInfo := rewardInfo room;
     createdAt := createdAt room |}.

Definition withRoom (m : Manager) (roomId : string) (room : Room) : Manager :=
  {| rooms := <[roomId := room]> (rooms m); addressToRoom := addressToRoom m |}.

Section Ops.
Context `{Ethers}.

(** The room keeps a reference to its game state: what [processAction]
    writes to the object it is given is written to the room. *)
Definition processPlayerAction (roomId : string) (action : LockBlock.Action)
    (eoa0 : string) (m : Manager) (now : Z)
  : Completion PlayerActionResult * Manager :=
  match getAddress eoa0 with
  | None => (Throw InvalidArgument, m)
  | Some formattedEoa =>
      match rooms m !! roomId with
      | None => (Normal (PlayFailed "Room not found"), m)
      | Some room =>
          if negb (bool_decide (is_Some (connections room !! formattedEoa))) then
            (Normal (PlayFailed "Player not in this room"), m)
          else
            match gameState room with
            | None => (Normal (PlayFailed "Game has not started"), m)
            | Some gs =>
                match LockBlock.processAction gs action formattedEoa now with
                | (Throw e, gs0) =>
                    (Throw e, withRoom m roomId (withGameState room (Some gs0)))
                | (Normal (LockBlock.Failure error), gs0) =>
                    (Normal (PlayFailed error),
                     withRoom m roomId (withGameState room (Some gs0)))
                | (Normal (LockBlock.Success gs'), _) =>
                    (Normal (Played gs' (LockBlock.isGameOver gs')
                               (LockBlock.gameResult gs')),
                     withRoom m roomId (withGameState room (Some gs')))
                end
            end
      end
  end.

Definition leaveRoom (eoa0 : string) (m : Manager) : Completion LeaveResult * Manager :=
  match getAddress eoa0 with
  | None => (Throw InvalidArgument, m)
  | Some formattedEoa =>
      match addressToRoom m !! formattedEoa with
      | None => (Normal (LeaveFailed "Player not in any room"), m)
      | Some roomId =>
          let rooms' :=
            match rooms m !! roomId with
            | Some room => delete roomId (rooms m)
            | None => rooms m
            end in
          (Normal (Left roomId),
           {| rooms := rooms';
              addressToRoom := delete formattedEoa (addressToRoom m) |})
      end
  end.

End Ops.

(** The keys of the connections of a room, in the order the loop of
    [closeRoom] meets them. *)
Definition connectionKeys (room : Room) : list string :=
  fst <$> map_to_list (connections room).

Definition closeRoom (roomId : string) (m : Manager) : Manager :=
  match rooms m !! roomId with
  | None => m
  | Some room =>
      {| rooms := delete roomId (rooms m);
         addressToRoom := foldr delete (addressToRoom m) (connectionKeys room) |}
  end.

(** [broadcastToRoom]: the [send] calls it makes, as pairs of a socket and
    the message, which is [JSON.stringify] of the type and the data.
    [readyState] tells the state of every socket. *)
Definition broadcastToRoom {Data : Type} (readyState : WebSocket → Z)
    (roomId type : string) (data : Data) (m : Manager)
  : list (WebSocket * (string * Data)) :=
  match rooms m !! roomId with
  | None => []
  | Some room =>
      (λ c, (ws c, (type, data)))
        <$> filter (λ c, readyState (ws c) = 1%Z)
              (snd <$> map_to_list (connections room))
  end.

(** The index and the rooms agree: an identity of the index is the
    occupant of the room it points to, a room without occupant has no
    connection, and an occupied room has the connection of its occupant
    only and is the room the index gives for that occupant. *)
Definition consistent (m : Manager) : Prop :=
  (∀ k r, addressToRoom m !! k = Some r →
          ∃ room, rooms m !! r = Some room ∧ eoa (player room) = Some k)
  ∧ (∀ r room, rooms m !! r = Some room →
       match eoa (player room) with
       | None => connections room = ∅
       | Some k =>
           k ≠ "" ∧ dom (connections room) = {[k]} ∧ addressToRoom m !! k = Some r
       end).

End RoomOps.

(** ** The validators of payloads, [src/utils/validators.js] *)

Module Validators.
Import Stdlib.Strings.Ascii.

#[local] Set Warnings "-register-all".

(** A value as [JSON.parse] builds it.  An object is the list of its own
    properties, one pair per name. *)
Inductive JsValue :=
| JUndefined
| JNull
| JBool (b : bool)
| JNumber (x : spec_float)
| JString (s : string)
| JArray (items : list JsValue)
| JObject (fields : list (string * JsValue)).

Fixpoint field (fields : list (string * JsValue)) (key : string) : JsValue :=
  match fields with
  | [] => JUndefined
  | (k, v) :: rest => if String.eqb k key then v else field rest key
  end.

(** [v.key] for the keys the validators read (none is an index or
    [length]); the validators read a property of a truthy value only, so
    the access never raises. *)
Definition get (v : JsValue) (key : string) : JsValue :=
  match v with
  | JObject fields => field fields key
  | _ => JUndefined
  end.

Definition truthy (v : JsValue) : bool :=
  match v with
  | JUndefined | JNull => false
  | JBool b => b
  | JNumber (S754_zero _) | JNumber S754_nan => false
  | JNumber _ => true
  | JString s => negb (String.eqb s "")
  | JArray _ | JObject _ => true
  end.

(** [typeof v === 'object'] *)
Definition isObject (v : JsValue) : bool :=
  match v with
  | JNull | JArray _ | JObject _ => true
  | _ => false
  end.

(** [list.includes(v)] for a list of strings *)
Definition includes (list : list string) (v : JsValue) : bool :=
  match v with
  | JString s => existsb (String.eqb s) list
  | _ => false
  end.

Definition between (lo hi : nat) (c : Ascii.ascii) : bool :=
  let n := Ascii.nat_of_ascii c in ((lo <=? n) && (n <=? hi))%nat.

(** The character classes [0-9], [a-f], [A-F]. *)
Definition isDigit (c : Ascii.ascii) : bool := between 48 57 c.
Definition isLowerHex (c : Ascii.ascii) : bool := between 97 102 c.
Definition isUpperHex (c : Ascii.ascii) : bool := between 65 70 c.
Definition isHex (c : Ascii.ascii) : bool := isDigit c || isLowerHex c || isUpperHex c.

(** [class{n}]: reads [n] characters of the class, returns what follows. *)
Fixpoint run (class : Ascii.ascii → bool) (n : nat) (s : string) : option string :=
  match n with
  | O => Some s
  | S n' =>
      match s with
      | String c rest => if class c then run class n' rest else None
      | EmptyString => None
      end
  end.

(** One character of a class, then what follows. *)
Definition one (class : Ascii.ascii → bool) (s : string) : option string := run class 1 s.

Definition isChar (c : Ascii.ascii) (c' : Ascii.ascii) : bool := Ascii.eqb c c'.

(** The pieces of a pattern one after the other. *)
Fixpoint pieces (ps : list (string → option string)) (s : string) : option string :=
  match ps with
  | [] => Some s
  | p :: rest =>
      match p s with
      | Some s' => pieces rest s'
      | None => None
      end
  end.

(** [^ pieces $] *)
Definition whole (ps : list (string → option string)) (s : string) : bool :=
  match pieces ps s with
  | Some EmptyString => true
  | _ => false
  end.

(** [/^0x[a-fA-F0-9]{40}$/] *)
Definition matchesAddress (s : string) : bool :=
  whole [one (isChar "0"%char); one (isChar "x"%char); run isHex 40] s.

Definition isValidEthereumAddress (address : JsValue) : bool :=
  match address with
  | JString s => matchesAddress s
  | _ => false
  end.

(** [[89ab]] under the flag [i] *)
Definition isVariant (c : Ascii.ascii) : bool :=
  existsb (Ascii.eqb c) ["8"; "9"; "a"; "b"; "A"; "B"]%char.

(** [/^[0-9a-f]{8}-[0-9a-f]{4}-4[0-9a-f]{3}-[89ab][0-9a-f]{3}-[0-9a-f]{12}$/i]:
    under the flag [i] the class [0-9a-f] is the class of all hex digits. *)
Definition matchesRoomId (s : string) : bool :=
  whole [run isHex 8; one (isChar "-"%char); run isHex 4; one (isChar "-"%char);
         one (isChar "4"%char); run isHex 3; one (isChar "-"%char);
         one isVariant; run isHex 3; one (isChar "-"%char); run isHex 12] s.

Definition isValidRoomId (roomId : JsValue) : bool :=
  match roomId with
  | JString s => matchesRoomId s
  | _ => false
  end.

(** [{ success: true, isCreating | isJoining }] and
    [{ success: false, error }] *)
Inductive JoinValidation :=
| Creating
| Joining
| JoinRejected (error : string).

Definition validateJoinRoomPayload (payload : JsValue) : JoinValidation :=
  if negb (truthy payload) || negb (isObject payload) then
    JoinRejected "Invalid payload format"
  else if negb (truthy (get payload "eoa")) then
    JoinRejected "Ethereum address is required"
  else if negb (isValidEthereumAddress (get payload "eoa")) then
    JoinRejected "Invalid Ethereum address format"
  else
    match get payload "roomId" with
    | JUndefined => Creating
    | roomId =>
        if negb (isValidRoomId roomId) then JoinRejected "Invalid room ID format"
        else Joining
    end.

Definition validActionTypes : list string :=
  ["move"; "jump"; "interact"; "complete_chunk"; "lose_life"].

Definition validDirections : list string := ["left"; "right"; "up"; "down"].

Definition validObjectTypes : list string := ["coin"; "gem"; "treasure"; "powerup"].

Inductive Validation :=
| Accepted
| Rejected (error : string).

(** [payload.action.type === t] *)
Definition typeIs (payload : JsValue) (t : string) : bool :=
  match get (get payload "action") "type" with
  | JString s => String.eqb s t
  | _ => false
  end.

Definition validateActionPayload (payload : JsValue) : Validation :=
  let action := get payload "action" in
  if negb (truthy payload) || negb (isObject payload) then
    Rejected "Invalid payload format"
  else if negb (truthy (get payload "roomId")) then
    Rejected "Room ID is required"
  else if negb (isValidRoomId (get payload "roomId")) then
    Rejected "Invalid room ID format"
  else if negb (truthy action) || negb (isObject action) then
    Rejected "Action object is required"
  else if negb (truthy (get action "type"))
          || negb (match get action "type" with JString _ => true | _ => false end) then
    Rejected "Action type is required"
  else if negb (includes validActionTypes (get action "type")) then
    Rejected
      "Invalid action type. Must be one of: move, jump, interact, complete_chunk, lose_life"
  else if typeIs payload "move"
          && (negb (truthy (get action "data"))
              || negb (truthy (get (get action "data") "direction"))) then
    Rejected "Move action requires direction in data"
  else if typeIs payload "move"
          && negb (includes validDirections (get (get action "data") "direction")) then
    Rejected "Invalid direction. Must be one of: left, right, up, down"
  else if typeIs payload "interact"
          && (negb (truthy (get action "data"))
              || negb (truthy (get (get action "data") "objectType"))) then
    Rejected "Interact action requires objectType in data"
  else if typeIs payload "interact"
          && negb (includes validObjectTypes (get (get action "data") "objectType")) then
    Rejected "Invalid objectType. Must be one of: coin, gem, treasure, powerup"
  else Accepted.

End Validators.

(** ** Counting what a run did *)

Module Play.
Import LockBlock.

(** How many lose_life actions a sequence holds. *)
Fixpoint losses (actions : list Action) : nat :=
  match actions with
  | [] => 0
  | a :: rest =>
      ((if String.eqb (type a) "lose_life" then 1 else 0) + losses rest)%nat
  end.

(** The result of a game in which [c] chunks were completed and [l] lives
    lost. *)
Definition verdict (c l : nat) : option string :=
  if (c =? 3)%nat then Some "win"
  else if (l =? 3)%nat then Some "lose"
  else None.

(** The state of a game of [k] after [c] complete_chunk and [l] lose_life
    actions. *)
Definition played (k : string) (c l : nat) (gs : GameState) : Prop :=
  (c ≤ 3)%nat ∧ (l ≤ 3)%nat ∧ ¬ (c = 3%nat ∧ l = 3%nat)
  ∧ eoa (player gs) = k
  ∧ lives (player gs) = (3 - Z.of_nat l)%Z
  ∧ chunks gs = progress c
  ∧ currentChunk gs = Nat.min c 2
  ∧ isGameOver gs = ((c =? 3)%nat || (l =? 3)%nat)
  ∧ gameResult gs = verdict c l.

(** What a game keeps for its whole life: the owner, the wager, the pool
    snapshot, the start time, the chunks with their identity, and every
    completed flag that is set. *)
Definition sameGame (gs gs' : GameState) : Prop :=
  eoa (player gs') = eoa (player gs)
  ∧ entryDeposit gs' = entryDeposit gs
  ∧ rewardPool gs' = rewardPool gs
  ∧ startTime gs' = startTime gs
  ∧ Forall2 (λ c c',
       id c' = id c ∧ name c' = name c ∧ difficulty c' = difficulty c
       ∧ obstacles c' = obstacles c ∧ collectibles c' = collectibles c
       ∧ (completed c = true → completed c' = true))
      (chunks gs) (chunks gs').

End Play.

(** * Properties of the game engine *)

Module LockBlockFacts.
Import Amount LockBlock.

Local Open Scope Z_scope.

Lemma checkGameOverConditions_player gs now :
  player (checkGameOverConditions gs now) = player gs.
Proof.
  unfold checkGameOverConditions.
  destruct (lives (player gs) <=? 0), (forallb completed (chunks gs)); reflexivity.
Qed.

Lemma checkGameOverConditions_chunks gs now :
  chunks (checkGameOverConditions gs now) = chunks gs.
Proof.
  unfold checkGameOverConditions.
  destruct (lives (player gs) <=? 0), (forallb completed (chunks gs)); reflexivity.
Qed.

Lemma checkGameOverConditions_currentChunk gs now :
  currentChunk (checkGameOverConditions gs now) = currentChunk gs.
Proof.
  unfold checkGameOverConditions.
  destruct (lives (player gs) <=? 0), (forallb completed (chunks gs)); reflexivity.
Qed.

(** The verdict of [checkGameOverConditions], case by case. *)
Lemma checkGameOverConditions_verdict gs now :
  gameResult (checkGameOverConditions gs now) =
    (if forallb completed (chunks gs) then Some "win"
     else if lives (player gs) <=? 0 then Some "lose"
     else None)
  ∧ isGameOver (checkGameOverConditions gs now) =
      (forallb completed (chunks gs) || (lives (player gs) <=? 0)).
Proof.
  unfold checkGameOverConditions.
  destruct (lives (player gs) <=? 0), (forallb completed (chunks gs)); split; reflexivity.
Qed.

Section WithEthers.
Context `{Ethers}.

(** A successful [processAction] went through the two guards and ends
    with [checkGameOverConditions]. *)
Lemma processAction_Success_inv gs action playerEoa now gs' :
  fst (processAction gs action playerEoa now) = Normal (Success gs') →
  isGameOver gs = false
  ∧ getAddress playerEoa = Some (eoa (player gs))
  ∧ ∃ updated, gs' = checkGameOverConditions updated now.
Proof.
  unfold processAction.
  destruct (getAddress playerEoa) as [k|] eqn:Hk; [|discriminate].
  destruct (isGameOver gs); [discriminate|].
  destruct (String.eqb_spec (eoa (player gs)) k) as [->|]; [|discriminate].
  cbn [negb].
  intros Hrun. split; [reflexivity|]. split; [reflexivity|].
  destruct (dispatch gs action) as [[[updated argument]|]|]; try discriminate.
  injection Hrun as <-. eexists; reflexivity.
Qed.

Lemma processAction_guards_pass gs action playerEoa now :
  isGameOver gs = false →
  getAddress playerEoa = Some (eoa (player gs)) →
  processAction gs action playerEoa now =
    match dispatch gs action with
    | None => (Normal (Failure "Invalid action type"), gs)
    | Some (Throw e) => (Throw e, gs)
    | Some (Normal (updated, argument)) =>
        (Normal (Success (checkGameOverConditions updated now)), argument)
    end.
Proof.
  intros Hover Hk. unfold processAction.
  rewrite Hk, Hover, String.eqb_refl. reflexivity.
Qed.

(** C1 (amended): when a transition leaves no life (lives <= 0) the game
    is over, and if every chunk is completed as well, so that both
    terminal conditions hold, the reported result is win: the loss check
    runs first and the win check, which runs second, overwrites its
    verdict.  The result is lose only when some chunk is not completed. *)
Theorem both_terminal_conditions_report_win gs action playerEoa now gs' :
  fst (processAction gs action playerEoa now) = Normal (Success gs') →
  lives (player gs') <= 0 →
  isGameOver gs' = true
  ∧ (forallb completed (chunks gs') = true → gameResult gs' = Some "win")
  ∧ (forallb completed (chunks gs') = false → gameResult gs' = Some "lose").
Proof.
  intros Hrun Hlives.
  apply processAction_Success_inv in Hrun as (_ & _ & updated & ->).
  rewrite checkGameOverConditions_player in Hlives.
  rewrite checkGameOverConditions_chunks.
  destruct (checkGameOverConditions_verdict updated now) as [-> ->].
  destruct (Z.leb_spec (lives (player updated)) 0) as [_ | Hpos]; [|lia].
  rewrite orb_true_r.
  split; [reflexivity|]. split; intros ->; reflexivity.
Qed.

(** C3: on a state whose [isGameOver] flag is set, [processAction]
    returns the error 'Game is already over' for every action and every
    requester the canonicalizer accepts, and in every case, also when
    the canonicalizer raises, the caller's state object is left as it
    was. *)
Theorem processAction_after_game_over gs action playerEoa now :
  isGameOver gs = true →
  snd (processAction gs action playerEoa now) = gs
  ∧ (is_Some (getAddress playerEoa) →
     fst (processAction gs action playerEoa now)
       = Normal (Failure "Game is already over")).
Proof.
  intros Hover. unfold processAction.
  destruct (getAddress playerEoa) as [k|].
  - rewrite Hover. split; [reflexivity | intros _; reflexivity].
  - split; [reflexivity | intros [k Hk]; discriminate].
Qed.

Lemma dispatch_keeps_index_in_range gs action updated argument :
  dispatch gs action = Some (Normal (updated, argument)) →
  indexInRange gs → indexInRange updated.
Proof.
  unfold dispatch, indexInRange. intros Hrun Hidx.
  repeat match type of Hrun with
         | context [if String.eqb ?a ?b then _ else _] => destruct (String.eqb a b)
         end; try discriminate.
  - unfold processMovement in Hrun. destruct (data action); [|discriminate].
    injection Hrun as <- _. exact Hidx.
  - cbn in Hrun. injection Hrun as <- _. exact Hidx.
  - unfold processInteraction in Hrun. destruct (data action); [|discriminate].
    injection Hrun as <- _. exact Hidx.
  - unfold processChunkCompletion in Hrun.
    destruct (chunks gs !! currentChunk gs); [|discriminate].
    injection Hrun as <- _. cbn. rewrite length_insert.
    destruct (Nat.leb_spec (length (chunks gs)) (currentChunk gs + 1)); lia.
  - injection Hrun as <- _. exact Hidx.
Qed.

(** The index invariant of the data model: it holds in the state
    [createGame] returns and in every state [processAction] returns from a
    state in which it holds. *)
Lemma index_in_range_invariant :
  (∀ playerEoa entryDeposit currentPoolAmount now gs0,
     createGame playerEoa entryDeposit currentPoolAmount now = Normal gs0 →
     indexInRange gs0)
  ∧ (∀ gs action playerEoa now gs',
       fst (processAction gs action playerEoa now) = Normal (Success gs') →
       indexInRange gs → indexInRange gs').
Proof.
  split.
  - intros playerEoa entryDeposit currentPoolAmount now gs0. unfold createGame.
    destruct (getAddress playerEoa); [|discriminate].
    intros [= <-]. unfold indexInRange. cbn. lia.
  - intros gs action playerEoa now gs' Hrun Hidx.
    destruct (processAction_Success_inv _ _ _ _ _ Hrun) as (Hover & Hk & _).
    rewrite (processAction_guards_pass _ _ _ _ Hover Hk) in Hrun.
    destruct (dispatch gs action) as [[[updated argument]|]|] eqn:Hd; try discriminate.
    injection Hrun as <-. unfold indexInRange.
    rewrite checkGameOverConditions_chunks, checkGameOverConditions_currentChunk.
    exact (dispatch_keeps_index_in_range _ _ _ _ Hd Hidx).
Qed.


(** *** Runs of moves *)





(** *** Runs of a new game *)

Lemma run_app actions1 : ∀ actions2 gs playerEoa now,
  run gs (actions1 ++ actions2) playerEoa now =
    match run gs actions1 playerEoa now with
    | Normal (Success gs1) => run gs1 actions2 playerEoa now
    | other => other
    end.
Proof.
  induction actions1 as [|a rest IH]; intros actions2 gs playerEoa now; cbn [app run].
  - reflexivity.
  - destruct (fst (processAction gs a playerEoa now)) as [[gs1|]|]; [apply IH | |];
      reflexivity.
Qed.

Lemma completion_step k n gs action playerEoa now :
  midGame k n gs → (n < 3)%nat →
  getAddress playerEoa = Some k →
  type action = "complete_chunk" →
  ∃ gs',
    fst (processAction gs action playerEoa now) = Normal (Success gs')
    ∧ ((n < 2)%nat → midGame k (S n) gs')
    ∧ (n = 2%nat → isGameOver gs' = true ∧ gameResult gs' = Some "win").
Proof.
  intros (Heoa & Hlives & Hover & Hres & Hcur & Hchunks) Hn Hk Hty.
  rewrite <- Heoa in Hk.
  rewrite (processAction_guards_pass _ _ _ _ Hover Hk).
  assert (dispatch gs action = Some (processChunkCompletion gs)) as ->
    by (unfold dispatch; rewrite Hty; reflexivity).
  unfold processChunkCompletion. rewrite Hcur, Hchunks.
  unfold midGame, checkGameOverConditions.
  destruct n as [|[|[|n]]]; [| | | lia];
    cbn; rewrite Hlives; cbn;
    (eexists; split; [reflexivity|]);
    (split; [intros Hlt | intros Heq]); try lia; try discriminate;
    cbn; repeat split; assumption || reflexivity.
Qed.

Lemma other_step k n gs action playerEoa now :
  midGame k n gs → (n < 3)%nat →
  getAddress playerEoa = Some k →
  Client.playable action →
  type action ≠ "complete_chunk" →
  ∃ gs',
    fst (processAction gs action playerEoa now) = Normal (Success gs')
    ∧ midGame k n gs'.
Proof.
  intros (Heoa & Hlives & Hover & Hres & Hcur & Hchunks) Hn Hk Hplay Hty.
  rewrite <- Heoa in Hk.
  rewrite (processAction_guards_pass _ _ _ _ Hover Hk).
  destruct action as [ty d]. unfold Client.playable in Hplay. cbn [type data] in *.
  unfold midGame, dispatch, checkGameOverConditions. cbn [type data].
  destruct Hplay as [[-> [md ->]] | [-> | [[-> [md ->]] | ->]]];
    [| | | contradiction]; cbn;
    repeat match goal with
           | |- context [if String.eqb ?a ?b then _ else _] =>
               destruct (String.eqb a b)
           end;
    cbn; rewrite Hlives, Hchunks; cbn;
    (destruct n as [|[|[|n]]]; [| | | lia]);
    cbn; (eexists; split; [reflexivity|]); cbn;
    repeat split; assumption || reflexivity.
Qed.

Lemma run_playable k actions : ∀ n gs playerEoa now,
  midGame k n gs →
  getAddress playerEoa = Some k →
  Forall Client.playable actions →
  (n + Client.completions actions < 3)%nat →
  ∃ gs',
    run gs actions playerEoa now = Normal (Success gs')
    ∧ midGame k (n + Client.completions actions) gs'.
Proof.
  induction actions as [|a rest IH]; intros n gs playerEoa now Hmid Hk Hplay Hcount.
  - exists gs. cbn. rewrite Nat.add_0_r. split; [reflexivity | exact Hmid].
  - apply Forall_cons in Hplay as [Ha Hrest]. cbn [Client.completions run] in *.
    destruct (String.eqb_spec (type a) "complete_chunk") as [Hty | Hty].
    + destruct (completion_step k n gs a playerEoa now Hmid ltac:(lia) Hk Hty)
        as (gs1 & -> & Hnext & _).
      destruct (IH (S n) gs1 playerEoa now (Hnext ltac:(lia)) Hk Hrest ltac:(lia))
        as (gs' & Hrun & Hmid').
      exists gs'. split; [exact Hrun|].
      replace (n + (1 + Client.completions rest))%nat
        with (S n + Client.completions rest)%nat by lia.
      exact Hmid'.
    + destruct (other_step k n gs a playerEoa now Hmid ltac:(lia) Hk Ha Hty)
        as (gs1 & -> & Hsame).
      destruct (IH n gs1 playerEoa now Hsame Hk Hrest ltac:(lia))
        as (gs' & Hrun & Hmid').
      exists gs'. split; [exact Hrun | exact Hmid'].
Qed.

(** C10: the state [createGame] returns has 3 lives, score 0, position
    (0,0), currentChunk 0, isGameOver false, gameResult null and exactly
    three chunks, none completed.  From it, a sequence of actions other
    than lose_life with fewer than three complete_chunk leaves the game
    in play, and the third complete_chunk ends it with the result win. *)
Theorem createGame_initial_state_and_win
    playerEoa entryDeposit currentPoolAmount now :
  is_Some (getAddress playerEoa) →
  ∃ gs0,
    createGame playerEoa entryDeposit currentPoolAmount now = Normal gs0
    ∧ lives (player gs0) = 3
    ∧ score (player gs0) = 0
    ∧ position (player gs0) = {| x := 0; y := 0 |}
    ∧ currentChunk gs0 = 0%nat
    ∧ isGameOver gs0 = false
    ∧ gameResult gs0 = None
    ∧ length (chunks gs0) = 3%nat
    ∧ Forall (λ c, completed c = false) (chunks gs0)
    ∧ (∀ actions,
         Forall Client.playable actions →
         (Client.completions actions < 3)%nat →
         ∃ gs', run gs0 actions playerEoa now = Normal (Success gs')
                ∧ isGameOver gs' = false ∧ gameResult gs' = None)
    ∧ (∀ before last,
         Forall Client.playable before →
         Client.completions before = 2%nat →
         type last = "complete_chunk" →
         ∃ gs', run gs0 (before ++ [last]) playerEoa now = Normal (Success gs')
                ∧ isGameOver gs' = true ∧ gameResult gs' = Some "win").
Proof.
  intros [k Hk]. unfold createGame. rewrite Hk.
  eexists. split; [reflexivity|].
  match goal with |- context [run ?g] => set (gs0 := g) end.
  assert (midGame k 0 gs0) as Hmid by (repeat split; reflexivity).
  do 7 (split; [reflexivity|]).
  split; [repeat constructor|].
  split.
  - intros actions Hplay Hcount.
    destruct (run_playable k actions 0 gs0 playerEoa now Hmid Hk Hplay Hcount)
      as (gs' & Hrun & _ & _ & Hover & Hres & _).
    exists gs'. repeat split; assumption.
  - intros before last Hplay Hcount Hty.
    destruct (run_playable k before 0 gs0 playerEoa now Hmid Hk Hplay ltac:(lia))
      as (gs1 & Hrun & Hmid1).
    rewrite Nat.add_0_l, Hcount in Hmid1.
    destruct (completion_step k 2 gs1 last playerEoa now Hmid1 ltac:(lia) Hk Hty)
      as (gs' & Hstep & _ & Hwin).
    exists gs'. rewrite run_app, Hrun. cbn [run]. rewrite Hstep.
    split; [reflexivity | exact (Hwin eq_refl)].
Qed.

End WithEthers.

End LockBlockFacts.

(** * Properties of the reward pool *)

Module RewardPoolFacts.
Import Amount RewardPool.

Local Open Scope Z_scope.

Lemma positive_not_leb_zero v : ltb zero v = true → leb v zero = false.
Proof. destruct v as [[]|[]| |[] m e]; cbn; congruence. Qed.

Lemma add_zero_positive v : ltb zero v = true → add zero v = v.
Proof. destruct v as [[]|[]| |[] m e]; cbn; congruence. Qed.

(** C4: when the total read from the pool is at most 0, [withdraw] fails
    with 'No funds available in reward pool' and the pool, its total and
    its three counters, stays as it was; when the total is above 0 the
    caller receives the stored total, the total becomes '0', [totalWins]
    and [totalGames] grow by one and [totalLosses] is unchanged. *)
Theorem withdraw_empty_fails_else_pays_all playerEoa pool now :
  (leb (parseFloat (totalAmount pool)) zero = true →
   withdrawFromRewardPool playerEoa pool now =
     (WithdrawFailed "No funds available in reward pool" (lit 0 0), pool))
  ∧ (ltb zero (parseFloat (totalAmount pool)) = true →
     withdrawFromRewardPool playerEoa pool now =
       (Withdrawn (totalAmount pool) (lit 0 0),
        {| totalAmount := lit 0 0;
           totalGames := totalGames pool + 1;
           totalWins := totalWins pool + 1;
           totalLosses := totalLosses pool;
           lastUpdated := now |})).
Proof.
  unfold withdrawFromRewardPool. split; intros Hamount.
  - rewrite Hamount. reflexivity.
  - rewrite (positive_not_leb_zero _ Hamount). reflexivity.
Qed.

Lemma perform_balanced op pool now : balanced pool → balanced (perform op pool now).
Proof.
  unfold balanced. intros Hpool.
  destruct op as [amount playerEoa | playerEoa | adminEoa]; cbn.
  - lia.
  - unfold withdrawFromRewardPool.
    destruct (leb (parseFloat (totalAmount pool)) zero); cbn; lia.
  - reflexivity.
Qed.

(** C7: totalGames = totalWins + totalLosses holds in the initial pool,
    every operation of the pool (deposit, withdraw, reset) keeps it, and
    so it holds in every pool the operations can build. *)
Theorem counters_balanced_in_every_reachable_pool :
  (∀ now, balanced (initialPool now))
  ∧ (∀ op pool now, balanced pool → balanced (perform op pool now))
  ∧ (∀ pool, reachable pool → balanced pool).
Proof.
  split; [intros now; reflexivity|].
  split; [exact perform_balanced|].
  induction 1 as [now | op pool now _ IH]; [reflexivity | exact (perform_balanced _ _ _ IH)].
Qed.

Lemma cycles_from_empty playerEoa now amounts : ∀ pool,
  totalAmount pool = lit 0 0 →
  Forall (λ amount, ltb zero (parseFloat amount) = true) amounts →
  fst (cycles amounts playerEoa pool now) =
    map (λ amount, Withdrawn (toString (parseFloat amount)) (lit 0 0)) amounts
  ∧ totalAmount (snd (cycles amounts playerEoa pool now)) = lit 0 0.
Proof.
  induction amounts as [|amount rest IH]; intros pool Hempty Hpos; cbn [cycles map].
  - split; [reflexivity | exact Hempty].
  - apply Forall_cons in Hpos as [Hamount Hrest].
    unfold addToRewardPool. cbn [snd].
    unfold withdrawFromRewardPool. cbn [totalAmount parseFloat toString].
    rewrite Hempty. change (parseFloat (lit 0 0)) with zero.
    rewrite (add_zero_positive _ Hamount), (positive_not_leb_zero _ Hamount).
    match goal with
    | |- context [cycles rest playerEoa ?p now] =>
        destruct (IH p eq_refl Hrest) as [Hfst Hsnd];
        destruct (cycles rest playerEoa p now) as [rs pool3]
    end.
    cbn [fst snd] in *. rewrite Hfst. split; [reflexivity | exact Hsnd].
Qed.

(** C2 (amended): [deposit(d)] stores the binary64 sum of the total and of
    [d] as [parseFloat] reads them, rounded to nearest, and counts one
    loss and one game; that sum need not be the decimal P + d.  On a pool
    whose total is '0' the stored total reads exactly as [d] does when
    d > 0, and any number of deposit-then-withdraw cycles started from
    such a pool pays out each deposit as it was read and leaves the total
    at '0'. *)
Theorem deposit_stores_binary64_sum amount playerEoa pool now :
  let pool' := snd (addToRewardPool amount playerEoa pool now) in
  parseFloat (totalAmount pool')
    = add (parseFloat (totalAmount pool)) (parseFloat amount)
  ∧ totalLosses pool' = totalLosses pool + 1
  ∧ totalGames pool' = totalGames pool + 1
  ∧ totalWins pool' = totalWins pool
  ∧ (totalAmount pool = lit 0 0 →
     ltb zero (parseFloat amount) = true →
     parseFloat (totalAmount pool') = parseFloat amount)
  ∧ (∀ amounts,
       totalAmount pool = lit 0 0 →
       Forall (λ amount, ltb zero (parseFloat amount) = true) amounts →
       fst (cycles amounts playerEoa pool now) =
         map (λ amount, Withdrawn (toString (parseFloat amount)) (lit 0 0)) amounts
       ∧ totalAmount (snd (cycles amounts playerEoa pool now)) = lit 0 0).
Proof.
  cbn. repeat split; try reflexivity.
  - intros -> Hamount. exact (add_zero_positive _ Hamount).
  - apply cycles_from_empty; assumption.
  - apply cycles_from_empty; assumption.
Qed.

End RewardPoolFacts.

(** * Properties of the room manager *)

Module RoomManagerFacts.
Import Amount RoomManager.

Section WithEthers.
Context `{Ethers}.

Lemma joinRoom_indexed roomId eoa0 ws0 m k :
  getAddress eoa0 = Some k →
  is_Some (addressToRoom m !! k) →
  joinRoom roomId eoa0 ws0 m
    = (Normal (JoinFailed "Player already in another room"), m).
Proof.
  intros Hk Hin. unfold joinRoom. rewrite Hk.
  rewrite bool_decide_eq_true_2 by exact Hin. reflexivity.
Qed.

Lemma joinRoom_Joined_inv roomId eoa0 ws0 m info :
  fst (joinRoom roomId eoa0 ws0 m) = Normal (Joined info) →
  ∃ k, getAddress eoa0 = Some k
       ∧ addressToRoom m !! k = None
       ∧ addressToRoom (snd (joinRoom roomId eoa0 ws0 m))
           = <[k := roomId]> (addressToRoom m).
Proof.
  unfold joinRoom.
  destruct (getAddress eoa0) as [k|]; [|discriminate].
  case_bool_decide as Hin; [discriminate|].
  destruct (rooms m !! roomId) as [room|]; [|discriminate].
  destruct (truthy (eoa (player room))); [discriminate|].
  destruct (RewardPool.validateEntryDeposit k (entryDeposit (player room)));
    [|discriminate].
  intros _. exists k. split; [reflexivity|]. split; [|reflexivity].
  destruct (addressToRoom m !! k) eqn:Hlook; [|reflexivity].
  exfalso. apply Hin. eauto.
Qed.

(** C6: [joinRoom] answers 'Player already in another room' when the
    canonical identity is in the index, otherwise 'Room not found' when
    the room id is absent, otherwise 'Room is already occupied' when the
    room has an occupant; whenever it does not report success, also when
    it raises, the manager (rooms and index) is left as it was; and
    after a successful join every further [joinRoom] of the same
    identity, whatever the room, answers 'Player already in another
    room' and leaves the index pointing to the first room. *)
Theorem joinRoom_rejects_without_mutation roomId eoa0 ws0 m :
  ((∀ info, fst (joinRoom roomId eoa0 ws0 m) ≠ Normal (Joined info)) →
   snd (joinRoom roomId eoa0 ws0 m) = m)
  ∧ (∀ k, getAddress eoa0 = Some k →
       (is_Some (addressToRoom m !! k) →
        joinRoom roomId eoa0 ws0 m
          = (Normal (JoinFailed "Player already in another room"), m))
       ∧ (addressToRoom m !! k = None →
          rooms m !! roomId = None →
          joinRoom roomId eoa0 ws0 m = (Normal (JoinFailed "Room not found"), m))
       ∧ (∀ room,
            addressToRoom m !! k = None →
            rooms m !! roomId = Some room →
            truthy (eoa (player room)) = true →
            joinRoom roomId eoa0 ws0 m
              = (Normal (JoinFailed "Room is already occupied"), m))
       ∧ (∀ info,
            fst (joinRoom roomId eoa0 ws0 m) = Normal (Joined info) →
            let m1 := snd (joinRoom roomId eoa0 ws0 m) in
            addressToRoom m1 !! k = Some roomId
            ∧ ∀ roomId2 ws2,
                joinRoom roomId2 eoa0 ws2 m1
                  = (Normal (JoinFailed "Player already in another room"), m1)
                ∧ addressToRoom (snd (joinRoom roomId2 eoa0 ws2 m1)) !! k
                    = Some roomId)).
Proof.
  split.
  - unfold joinRoom.
    destruct (getAddress eoa0) as [k|]; [|reflexivity].
    case_bool_decide; [reflexivity|].
    destruct (rooms m !! roomId) as [room|]; [|reflexivity].
    destruct (truthy (eoa (player room))); [reflexivity|].
    destruct (RewardPool.validateEntryDeposit k (entryDeposit (player room)));
      [|reflexivity].
    intros Hno. exfalso. eapply Hno. reflexivity.
  - intros k Hk. split; [apply joinRoom_indexed; exact Hk|].
    split; [|split].
    + intros Hfree Habsent. unfold joinRoom. rewrite Hk, Hfree, Habsent.
      rewrite bool_decide_eq_false_2 by (intros [? ?]; discriminate). reflexivity.
    + intros room Hfree Hroom Hocc. unfold joinRoom. rewrite Hk, Hfree, Hroom, Hocc.
      rewrite bool_decide_eq_false_2 by (intros [? ?]; discriminate). reflexivity.
    + intros info Hjoined m1.
      destruct (joinRoom_Joined_inv _ _ _ _ _ Hjoined) as (k' & Hk' & _ & Hindex).
      assert (k' = k) as -> by congruence.
      assert (addressToRoom m1 !! k = Some roomId) as Hpoint
        by (subst m1; rewrite Hindex; apply lookup_insert_eq).
      split; [exact Hpoint|].
      intros roomId2 ws2.
      rewrite (joinRoom_indexed roomId2 eoa0 ws2 m1 k Hk) by eauto.
      split; [reflexivity | exact Hpoint].
Qed.


End WithEthers.

End RoomManagerFacts.

(** * More properties of the game engine *)

Module EngineFacts.
Import Amount LockBlock.

Local Open Scope Z_scope.

Section WithEthers.
Context `{Ethers}.

(** The cases of the [switch]. *)
Lemma dispatch_Normal_inv gs action updated argument :
  dispatch gs action = Some (Normal (updated, argument)) →
  (type action = "move"
   ∧ processMovement gs (data action) = Normal updated ∧ argument = gs)
  ∨ (type action = "jump"
     ∧ processJump gs (data action) = Normal updated ∧ argument = gs)
  ∨ (type action = "interact"
     ∧ processInteraction gs (data action) = Normal (updated, argument))
  ∨ (type action = "complete_chunk"
     ∧ processChunkCompletion gs = Normal (updated, argument))
  ∨ (type action = "lose_life"
     ∧ updated = processLifeLoss gs ∧ argument = gs).
Proof.
  unfold dispatch. intros Hd.
  destruct (String.eqb_spec (type action) "move") as [Hty | _].
  { left. destruct (processMovement gs (data action)); [|discriminate].
    injection Hd as <- <-. auto. }
  destruct (String.eqb_spec (type action) "jump") as [Hty | _].
  { right; left. destruct (processJump gs (data action)); [|discriminate].
    injection Hd as <- <-. auto. }
  destruct (String.eqb_spec (type action) "interact") as [Hty | _].
  { right; right; left. injection Hd as Hd. auto. }
  destruct (String.eqb_spec (type action) "complete_chunk") as [Hty | _].
  { right; right; right; left. injection Hd as Hd. auto. }
  destruct (String.eqb_spec (type action) "lose_life") as [Hty | _]; [|discriminate].
  right; right; right; right. injection Hd as <- <-. auto.
Qed.

Lemma processAction_Success_dispatch gs action playerEoa now gs' :
  fst (processAction gs action playerEoa now) = Normal (Success gs') →
  ∃ updated argument,
    dispatch gs action = Some (Normal (updated, argument))
    ∧ gs' = checkGameOverConditions updated now
    ∧ snd (processAction gs action playerEoa now) = argument.
Proof.
  intros Hrun.
  destruct (LockBlockFacts.processAction_Success_inv _ _ _ _ _ Hrun) as (Hplay & Hk & _).
  rewrite (LockBlockFacts.processAction_guards_pass _ _ _ _ Hplay Hk) in Hrun |- *.
  destruct (dispatch gs action) as [[[updated argument]|]|]; try discriminate.
  injection Hrun as <-. eauto.
Qed.

Lemma played_step k c l gs action playerEoa now gs' :
  Play.played k c l gs →
  fst (processAction gs action playerEoa now) = Normal (Success gs') →
  Play.played k
    (c + (if String.eqb (type action) "complete_chunk" then 1 else 0))
    (l + (if String.eqb (type action) "lose_life" then 1 else 0)) gs'.
Proof.
  intros (Hc & Hl & Hboth & Heoa & Hlives & Hchunks & Hcur & Hover & Hres) Hrun.
  destruct (LockBlockFacts.processAction_Success_inv _ _ _ _ _ Hrun) as (Hplay & Hk & _).
  rewrite (LockBlockFacts.processAction_guards_pass _ _ _ _ Hplay Hk) in Hrun.
  rewrite Hplay in Hover. symmetry in Hover. apply orb_false_elim in Hover as [Hc3 Hl3].
  apply Nat.eqb_neq in Hc3, Hl3.
  destruct gs as [[e pos lv sc] chs cur over res st et rp dep].
  destruct action as [ty d]. cbn [player eoa lives chunks currentChunk type data] in *.
  subst e lv chs cur. unfold dispatch in Hrun. cbn [type data] in Hrun.
  destruct (String.eqb_spec ty "move") as [-> | _].
  { destruct d as [md|]; [|discriminate]. cbn in Hrun. injection Hrun as <-.
    destruct c as [|[|[|c]]]; [| | | lia]; destruct l as [|[|[|l]]]; try lia;
      unfold Play.played, checkGameOverConditions; cbn;
      repeat split; try lia; try reflexivity; intros [? ?]; discriminate. }
  destruct (String.eqb_spec ty "jump") as [-> | _].
  { cbn in Hrun. injection Hrun as <-.
    destruct c as [|[|[|c]]]; [| | | lia]; destruct l as [|[|[|l]]]; try lia;
      unfold Play.played, checkGameOverConditions; cbn;
      repeat split; try lia; try reflexivity; intros [? ?]; discriminate. }
  destruct (String.eqb_spec ty "interact") as [-> | _].
  { destruct d as [md|]; [|discriminate]. cbn in Hrun. injection Hrun as <-.
    destruct c as [|[|[|c]]]; [| | | lia]; destruct l as [|[|[|l]]]; try lia;
      unfold Play.played, checkGameOverConditions; cbn;
      repeat match goal with
             | |- context [if String.eqb ?a ?b then _ else _] => destruct (String.eqb a b)
             end; cbn;
      repeat split; try lia; try reflexivity; intros [? ?]; discriminate. }
  destruct (String.eqb_spec ty "complete_chunk") as [-> | _].
  { destruct c as [|[|[|c]]]; [| | | lia]; destruct l as [|[|[|l]]]; try lia;
      cbn in Hrun; injection Hrun as <-;
      unfold Play.played, checkGameOverConditions; cbn;
      repeat split; try lia; try reflexivity; intros [? ?]; discriminate. }
  destruct (String.eqb_spec ty "lose_life") as [-> | _]; [|discriminate].
  destruct c as [|[|[|c]]]; [| | | lia]; destruct l as [|[|[|l]]]; try lia;
    cbn in Hrun; injection Hrun as <-;
    unfold Play.played, checkGameOverConditions; cbn;
    repeat split; try lia; try reflexivity; intros [? ?]; discriminate.
Qed.

Lemma played_run k actions : ∀ c l gs playerEoa now gs',
  Play.played k c l gs →
  run gs actions playerEoa now = Normal (Success gs') →
  Play.played k (c + Client.completions actions) (l + Play.losses actions) gs'.
Proof.
  induction actions as [|a rest IH]; intros c l gs playerEoa now gs' Hgs Hrun;
    cbn [run Client.completions Play.losses] in *.
  - injection Hrun as <-. rewrite !Nat.add_0_r. exact Hgs.
  - destruct (fst (processAction gs a playerEoa now)) as [[gs1|]|] eqn:Hstep;
      try discriminate.
    rewrite !Nat.add_assoc.
    exact (IH _ _ gs1 playerEoa now gs' (played_step _ _ _ _ _ _ _ _ Hgs Hstep) Hrun).
Qed.

(** X1: every sequence of actions that the engine carries out to the end
    on a new game leaves 3 minus the number of lose_life actions as lives,
    the first C chunks completed where C is the number of complete_chunk
    actions, [currentChunk] at min C 2, and the result win when C = 3, lose
    when three lives were lost, none otherwise; at most three of each kind
    are carried out, never three of both, so no state a new game reaches
    has both no life left and every chunk completed. *)
Theorem run_of_new_game_tallies playerEoa entryDeposit currentPoolAmount now gs0
    actions gs' :
  createGame playerEoa entryDeposit currentPoolAmount now = Normal gs0 →
  run gs0 actions playerEoa now = Normal (Success gs') →
  Play.played (eoa (player gs0)) (Client.completions actions) (Play.losses actions) gs'
  ∧ ¬ (lives (player gs') <= 0 ∧ forallb completed (chunks gs') = true).
Proof.
  intros Hnew Hrun. unfold createGame in Hnew.
  destruct (getAddress playerEoa) as [k|]; [|discriminate].
  injection Hnew as <-. cbn [player eoa].
  match type of Hrun with run ?g _ _ _ = _ => set (gs0 := g) in * end.
  assert (Play.played k 0 0 gs0) as H0.
  { unfold Play.played. cbn. repeat split; try lia; try reflexivity. }
  pose proof (played_run k actions 0 0 gs0 playerEoa now gs' H0 Hrun) as Hend.
  rewrite !Nat.add_0_l in Hend. split; [exact Hend|].
  destruct Hend as (Hc & Hl & Hboth & _ & Hlives & Hchunks & _).
  intros [Hdead Hall]. apply Hboth.
  rewrite Hchunks in Hall. rewrite Hlives in Hdead.
  split; [|lia].
  destruct (Client.completions actions) as [|[|[|[|c]]]]; try lia; try discriminate.
Qed.

(** X2: [processAction] writes to the state object of its caller only
    when it succeeds, and then only for interact and complete_chunk: every
    rejection and every exception leaves the object as it was, and so do
    move, jump and lose_life.  After a success the caller's object shows
    the chunks of the returned state (and, for interact, its player), with
    its own [currentChunk] and game-over flag. *)
Theorem processAction_writes_only_on_success gs action playerEoa now :
  ((∀ gs', fst (processAction gs action playerEoa now) ≠ Normal (Success gs')) →
   snd (processAction gs action playerEoa now) = gs)
  ∧ (type action ≠ "interact" → type action ≠ "complete_chunk" →
     snd (processAction gs action playerEoa now) = gs)
  ∧ (∀ gs', fst (processAction gs action playerEoa now) = Normal (Success gs') →
       chunks (snd (processAction gs action playerEoa now)) = chunks gs'
       ∧ (type action = "interact" →
          player (snd (processAction gs action playerEoa now)) = player gs')
       ∧ currentChunk (snd (processAction gs action playerEoa now)) = currentChunk gs
       ∧ isGameOver (snd (processAction gs action playerEoa now)) = false).
Proof.
  split; [|split].
  - unfold processAction.
    destruct (getAddress playerEoa) as [k|]; [|reflexivity].
    destruct (isGameOver gs); [reflexivity|].
    destruct (negb _); [reflexivity|].
    destruct (dispatch gs action) as [[[updated argument]|]|]; try reflexivity.
    intros Hno. exfalso. eapply Hno. reflexivity.
  - intros Hi Hc. unfold processAction.
    destruct (getAddress playerEoa) as [k|]; [|reflexivity].
    destruct (isGameOver gs); [reflexivity|].
    destruct (negb _); [reflexivity|].
    destruct (dispatch gs action) as [[[updated argument]|]|] eqn:Hd; try reflexivity.
    cbn [snd].
    destruct (dispatch_Normal_inv _ _ _ _ Hd)
      as [(_ & _ & ->) | [(_ & _ & ->) | [(Hty & _) | [(Hty & _) | (_ & _ & ->)]]]];
      try reflexivity; contradiction.
  - intros gs' Hrun.
    destruct (LockBlockFacts.processAction_Success_inv _ _ _ _ _ Hrun) as (Hplay & _).
    destruct (processAction_Success_dispatch _ _ _ _ _ Hrun)
      as (updated & argument & Hd & -> & ->).
    rewrite LockBlockFacts.checkGameOverConditions_chunks,
      LockBlockFacts.checkGameOverConditions_player.
    destruct (dispatch_Normal_inv _ _ _ _ Hd)
      as [(Hty & Hm & ->) | [(Hty & Hm & ->) | [(Hty & Hm) | [(Hty & Hm) | (Hty & -> & ->)]]]].
    + unfold processMovement in Hm. destruct (data action); [|discriminate].
      injection Hm as <-. rewrite Hty. repeat split; auto; discriminate.
    + cbn in Hm. injection Hm as <-. rewrite Hty. repeat split; auto; discriminate.
    + unfold processInteraction in Hm. destruct (data action); [|discriminate].
      injection Hm as <- <-. repeat split; auto.
    + unfold processChunkCompletion in Hm.
      destruct (chunks gs !! currentChunk gs); [|discriminate].
      injection Hm as <- <-. rewrite Hty. repeat split; auto; discriminate.
    + rewrite Hty. repeat split; auto; discriminate.
Qed.

Lemma sameGame_refl gs : Play.sameGame gs gs.
Proof.
  unfold Play.sameGame. repeat split.
  apply Forall2_same_length_lookup. split; [reflexivity|].
  intros i c c' Hc Hc'. assert (c' = c) as -> by congruence. repeat split; auto.
Qed.

Lemma sameGame_trans gs1 gs2 gs3 :
  Play.sameGame gs1 gs2 → Play.sameGame gs2 gs3 → Play.sameGame gs1 gs3.
Proof.
  intros (He & Hd & Hp & Hs & Hc) (He' & Hd' & Hp' & Hs' & Hc').
  unfold Play.sameGame. repeat split; try congruence.
  eapply Forall2_trans; [| exact Hc | exact Hc'].
  cbn. intros c1 c2 c3 (? & ? & ? & ? & ? & ?) (? & ? & ? & ? & ? & ?).
  repeat split; try congruence. auto.
Qed.

Lemma sameGame_step gs action playerEoa now gs' :
  fst (processAction gs action playerEoa now) = Normal (Success gs') →
  Play.sameGame gs gs'.
Proof.
  intros Hrun.
  destruct (processAction_Success_dispatch _ _ _ _ _ Hrun)
    as (updated & argument & Hd & -> & _).
  assert (Play.sameGame gs updated) as Hsame.
  { destruct (dispatch_Normal_inv _ _ _ _ Hd)
      as [(_ & Hm & _) | [(_ & Hm & _) | [(_ & Hm) | [(_ & Hm) | (_ & -> & _)]]]].
    - unfold processMovement in Hm. destruct (data action); [|discriminate].
      injection Hm as <-. apply (sameGame_refl gs).
    - cbn in Hm. injection Hm as <-. apply (sameGame_refl gs).
    - unfold processInteraction in Hm. destruct (data action) as [d|]; [|discriminate].
      injection Hm as <- _.
      destruct (sameGame_refl gs) as (_ & ? & ? & ? & ?).
      unfold Play.sameGame. cbn.
      repeat match goal with
             | |- context [if String.eqb ?a ?b then _ else _] => destruct (String.eqb a b)
             end; repeat split; auto.
    - unfold processChunkCompletion in Hm.
      destruct (chunks gs !! currentChunk gs) as [c|] eqn:Hc; [|discriminate].
      injection Hm as <- _. unfold Play.sameGame. cbn. repeat split.
      apply Forall2_same_length_lookup. split; [rewrite length_insert; reflexivity|].
      intros i c1 c2 Hc1 Hc2.
      destruct (decide (i = currentChunk gs)) as [-> | Hne].
      + rewrite list_lookup_insert_eq in Hc2 by (eapply lookup_lt_Some; eauto).
        injection Hc2 as <-. assert (c1 = c) as -> by congruence.
        repeat split; auto.
      + rewrite list_lookup_insert_ne in Hc2 by congruence.
        assert (c2 = c1) as -> by congruence. repeat split; auto.
    - apply (sameGame_refl gs). }
  destruct Hsame as (? & ? & ? & ? & ?). unfold Play.sameGame.
  rewrite LockBlockFacts.checkGameOverConditions_player,
    LockBlockFacts.checkGameOverConditions_chunks.
  unfold checkGameOverConditions.
  destruct (lives (player updated) <=? 0), (forallb completed (chunks updated));
    repeat split; assumption.
Qed.

(** X3: a run that the engine carries out to the end is one game from
    start to finish: the owner, the entry deposit, the pool snapshot and
    the start time of the final state are those of the first, the chunks
    are the same chunks in the same order (id, name, difficulty, obstacles,
    collectibles), and a chunk that was completed stays completed. *)
Theorem run_keeps_owner_wager_and_completed_chunks actions :
  ∀ gs playerEoa now gs',
    run gs actions playerEoa now = Normal (Success gs') →
    Play.sameGame gs gs'.
Proof.
  induction actions as [|a rest IH]; intros gs playerEoa now gs' Hrun; cbn [run] in Hrun.
  - injection Hrun as <-. apply sameGame_refl.
  - destruct (fst (processAction gs a playerEoa now)) as [[gs1|]|] eqn:Hstep;
      try discriminate.
    exact (sameGame_trans _ _ _ (sameGame_step _ _ _ _ _ Hstep) (IH _ _ _ _ Hrun)).
Qed.

(** X4: in every state [processAction] returns the three end markers
    agree: the game is over exactly when [gameResult] is set and exactly
    when [endTime] is set (to the time of the call); the result is win
    exactly when every chunk is completed, lose exactly when some chunk is
    not and no life is left, and the game goes on exactly when some chunk
    is not completed and a life is left. *)
Theorem returned_state_end_markers_agree gs action playerEoa now gs' :
  fst (processAction gs action playerEoa now) = Normal (Success gs') →
  (isGameOver gs' = true ↔ gameResult gs' ≠ None)
  ∧ endTime gs' = (if isGameOver gs' then Some now else None)
  ∧ (gameResult gs' = Some "win" ↔ forallb completed (chunks gs') = true)
  ∧ (gameResult gs' = Some "lose" ↔
     forallb completed (chunks gs') = false ∧ lives (player gs') <= 0)
  ∧ (isGameOver gs' = false ↔
     forallb completed (chunks gs') = false ∧ 0 < lives (player gs')).
Proof.
  intros Hrun.
  apply LockBlockFacts.processAction_Success_inv in Hrun as (_ & _ & updated & ->).
  unfold checkGameOverConditions.
  destruct (Z.leb_spec (lives (player updated)) 0),
    (forallb completed (chunks updated)) eqn:Hall; cbn; rewrite ?Hall;
    repeat split; try congruence; try lia; try (intros [? ?]); try discriminate;
    try lia; auto.
Qed.

(** X5: an interaction of the owner on a game that is not over succeeds
    and adds to the score the value for a coin or a powerup, twice the
    value for a gem, five times the value for a treasure, and nothing for
    any other or missing object type; the value is 10 when none is given.
    Lives, position, chunks and [currentChunk] stay as they are. *)
Theorem interact_scores_by_object_type gs action d playerEoa now :
  isGameOver gs = false →
  getAddress playerEoa = Some (eoa (player gs)) →
  type action = "interact" →
  data action = Some d →
  ∃ gs',
    fst (processAction gs action playerEoa now) = Normal (Success gs')
    ∧ (objectType d = Some "coin" →
       score (player gs') = score (player gs) + default 10 (value d))
    ∧ (objectType d = Some "gem" →
       score (player gs') = score (player gs) + default 10 (value d) * 2)
    ∧ (objectType d = Some "treasure" →
       score (player gs') = score (player gs) + default 10 (value d) * 5)
    ∧ (objectType d = Some "powerup" →
       score (player gs') = score (player gs) + default 10 (value d))
    ∧ (objectType d ∉ [Some "coin"; Some "gem"; Some "treasure"; Some "powerup"] →
       score (player gs') = score (player gs))
    ∧ lives (player gs') = lives (player gs)
    ∧ position (player gs') = position (player gs)
    ∧ chunks gs' = chunks gs
    ∧ currentChunk gs' = currentChunk gs.
Proof.
  intros Hplay Hk Hty Hd.
  rewrite (LockBlockFacts.processAction_guards_pass _ _ _ _ Hplay Hk).
  assert (dispatch gs action = Some (processInteraction gs (data action))) as ->
    by (unfold dispatch; rewrite Hty; reflexivity).
  rewrite Hd. unfold processInteraction. cbn [fst].
  eexists. split; [reflexivity|].
  rewrite LockBlockFacts.checkGameOverConditions_player,
    LockBlockFacts.checkGameOverConditions_chunks,
    LockBlockFacts.checkGameOverConditions_currentChunk.
  cbn [withPlayer player chunks currentChunk].
  split; [intros ->; reflexivity|]. split; [intros ->; reflexivity|].
  split; [intros ->; reflexivity|]. split; [intros ->; reflexivity|].
  split.
  - intros Hother. destruct (objectType d) as [ty|]; [|reflexivity].
    cbn [from_option]. change (Datatypes.id ty) with ty.
    destruct (String.eqb_spec ty "coin") as [-> | _]; [exfalso; set_solver|].
    destruct (String.eqb_spec ty "gem") as [-> | _]; [exfalso; set_solver|].
    destruct (String.eqb_spec ty "treasure") as [-> | _]; [exfalso; set_solver|].
    destruct (String.eqb_spec ty "powerup") as [-> | _]; [exfalso; set_solver|].
    reflexivity.
  - repeat match goal with
           | |- context [if String.eqb ?a ?b then _ else _] => destruct (String.eqb a b)
           end; repeat split; reflexivity.
Qed.

(** X6: no action adds a life.  Only lose_life changes [lives]: it takes
    one life, never going below 0, puts the player back at the origin and
    keeps the score; so with lives >= 0 before an action, the lives after
    it are between 0 and the lives before. *)
Theorem lives_only_go_down gs action playerEoa now gs' :
  fst (processAction gs action playerEoa now) = Normal (Success gs') →
  (type action ≠ "lose_life" → lives (player gs') = lives (player gs))
  ∧ (type action = "lose_life" →
     lives (player gs') = Z.max 0 (lives (player gs) - 1)
     ∧ position (player gs') = {| x := 0; y := 0 |}
     ∧ score (player gs') = score (player gs)
     ∧ chunks gs' = chunks gs)
  ∧ (0 <= lives (player gs) → 0 <= lives (player gs') <= lives (player gs)).
Proof.
  intros Hrun.
  destruct (processAction_Success_dispatch _ _ _ _ _ Hrun)
    as (updated & argument & Hd & -> & _).
  rewrite LockBlockFacts.checkGameOverConditions_player,
    LockBlockFacts.checkGameOverConditions_chunks.
  destruct (dispatch_Normal_inv _ _ _ _ Hd)
    as [(Hty & Hm & _) | [(Hty & Hm & _) | [(Hty & Hm) | [(Hty & Hm) | (Hty & -> & _)]]]].
  - unfold processMovement in Hm. destruct (data action); [|discriminate].
    injection Hm as <-. cbn. rewrite Hty.
    split; [reflexivity|]. split; [discriminate | lia].
  - cbn in Hm. injection Hm as <-. cbn. rewrite Hty.
    split; [reflexivity|]. split; [discriminate | lia].
  - unfold processInteraction in Hm. destruct (data action); [|discriminate].
    injection Hm as <- _. rewrite Hty.
    assert (∀ p', lives p' = lives (player gs) →
            lives (player (withPlayer gs p')) = lives (player gs)) as Hlv by auto.
    cbn [withPlayer player].
    repeat match goal with
           | |- context [if String.eqb ?a ?b then _ else _] => destruct (String.eqb a b)
           end; cbn; (split; [reflexivity|]); (split; [discriminate | lia]).
  - unfold processChunkCompletion in Hm.
    destruct (chunks gs !! currentChunk gs); [|discriminate].
    injection Hm as <- _. cbn. rewrite Hty.
    split; [reflexivity|]. split; [discriminate | lia].
  - cbn. split; [intros Hne; contradiction|]. split; [auto | lia].
Qed.

(** X7: the edges of a move of the owner on a game that is not over.
    Without a [data] object it raises a TypeError and the state is not
    touched; with a direction that is missing or is none of left, right,
    up, down it succeeds and the player stays as it is; without a distance
    it moves by 1; and a jump is the move up by 2 whatever its data,
    present or not. *)
Theorem move_edge_cases gs action playerEoa now :
  isGameOver gs = false →
  getAddress playerEoa = Some (eoa (player gs)) →
  (type action = "move" → data action = None →
   processAction gs action playerEoa now = (Throw TypeError, gs))
  ∧ (type action = "move" → ∀ d, data action = Some d →
     direction d ∉ [Some "left"; Some "right"; Some "up"; Some "down"] →
     ∃ gs', processAction gs action playerEoa now = (Normal (Success gs'), gs)
            ∧ player gs' = player gs)
  ∧ (type action = "move" → ∀ d, data action = Some d → distance d = None →
     processAction gs action playerEoa now =
       processAction gs
         {| type := "move";
            data := Some {| direction := direction d; distance := Some 1;
                            objectType := objectType d; value := value d |} |}
         playerEoa now)
  ∧ (type action = "jump" →
     processAction gs action playerEoa now =
       processAction gs (Client.move ("up", 2)) playerEoa now).
Proof.
  intros Hplay Hk.
  rewrite !(LockBlockFacts.processAction_guards_pass _ _ _ _ Hplay Hk).
  split; [|split; [|split]].
  - intros Hty Hd. unfold dispatch. rewrite Hty, Hd. reflexivity.
  - intros Hty d Hd Hdir. unfold dispatch. rewrite Hty, Hd. cbn.
    eexists. split; [reflexivity|].
    rewrite LockBlockFacts.checkGameOverConditions_player. cbn.
    destruct (direction d) as [dir|]; cbn.
    + destruct (String.eqb_spec dir "left") as [-> | _]; [exfalso; set_solver|].
      destruct (String.eqb_spec dir "right") as [-> | _]; [exfalso; set_solver|].
      destruct (String.eqb_spec dir "up") as [-> | _]; [exfalso; set_solver|].
      destruct (String.eqb_spec dir "down") as [-> | _]; [exfalso; set_solver|].
      destruct (player gs); reflexivity.
    + destruct (player gs); reflexivity.
  - intros Hty d Hd Hdist.
    rewrite (LockBlockFacts.processAction_guards_pass _ _ _ _ Hplay Hk).
    unfold dispatch. rewrite Hty, Hd. cbn. rewrite Hdist. reflexivity.
  - intros Hty. unfold dispatch. rewrite Hty. reflexivity.
Qed.

End WithEthers.

End EngineFacts.

(** * More properties of the reward pool and of the messages *)

Module PoolFacts.
Import Amount RewardPool.

Local Open Scope Z_scope.

(** X8: what [formatGameOverMessage] announces is what the pool then does,
    as long as the pool still holds the total the game saw when it
    started.  For a lost game the announced new pool amount is the total
    [addToRewardPool] stores for the entry deposit, and the change is "+"
    the deposit; for a won game with a positive pool the announced reward
    and new amount are what [withdrawFromRewardPool] returns, and the
    change is "-" the total. *)
Theorem game_over_message_matches_pool gs playerEoa pool now :
  LockBlock.totalAmount (LockBlock.rewardPool gs) = totalAmount pool →
  let msg := LockBlockFormat.formatGameOverMessage gs in
  LockBlockFormat.playerScore msg = LockBlock.score (LockBlock.player gs)
  ∧ (LockBlock.gameResult gs = Some "lose" →
     addToRewardPool (LockBlock.entryDeposit gs) playerEoa pool now
       = (Added (LockBlockFormat.newPoolAmount msg) (LockBlock.entryDeposit gs),
          snd (addToRewardPool (LockBlock.entryDeposit gs) playerEoa pool now))
     ∧ totalAmount (snd (addToRewardPool (LockBlock.entryDeposit gs) playerEoa pool now))
         = LockBlockFormat.newPoolAmount msg
     ∧ LockBlockFormat.rewardAmount msg = lit 0 0
     ∧ LockBlockFormat.poolChange msg
         = LockBlockFormat.Signed "+" (LockBlock.entryDeposit gs))
  ∧ (LockBlock.gameResult gs = Some "win" →
     ltb zero (parseFloat (totalAmount pool)) = true →
     fst (withdrawFromRewardPool playerEoa pool now)
       = Withdrawn (LockBlockFormat.rewardAmount msg) (LockBlockFormat.newPoolAmount msg)
     ∧ totalAmount (snd (withdrawFromRewardPool playerEoa pool now))
         = LockBlockFormat.newPoolAmount msg
     ∧ LockBlockFormat.poolChange msg
         = LockBlockFormat.Signed "-" (totalAmount pool)).
Proof.
  intros Hsnap msg. subst msg. unfold LockBlockFormat.formatGameOverMessage.
  split; [destruct (LockBlockFormat.resultIs (LockBlock.gameResult gs) "win"),
            (LockBlockFormat.resultIs (LockBlock.gameResult gs) "lose"); reflexivity|].
  split.
  - intros Hres. rewrite Hres, Hsnap. cbn. repeat split; reflexivity.
  - intros Hres Hpos. rewrite Hres, Hsnap. cbn.
    unfold withdrawFromRewardPool.
    rewrite (RewardPoolFacts.positive_not_leb_zero _ Hpos). cbn.
    repeat split; reflexivity.
Qed.

(** X9: the projection [calculatePotentialReward] shows a player is what
    the pool operations do on the same pool: [poolAfterLoss] is the total
    [addToRewardPool] stores for that deposit, [potentialWinAmount] is
    what [withdrawFromRewardPool] pays when the pool is positive, and
    [riskAmount] is the deposit itself. *)
Theorem potential_reward_matches_pool_operations entryDeposit playerEoa pool now :
  let info := calculatePotentialReward entryDeposit pool in
  poolAfterLoss info
    = totalAmount (snd (addToRewardPool entryDeposit playerEoa pool now))
  ∧ riskAmount info = entryDeposit
  ∧ currentPoolAmount info = totalAmount pool
  ∧ (ltb zero (parseFloat (totalAmount pool)) = true →
     fst (withdrawFromRewardPool playerEoa pool now)
       = Withdrawn (potentialWinAmount info) (lit 0 0)).
Proof.
  cbn. repeat split.
  intros Hpos. unfold withdrawFromRewardPool.
  rewrite (RewardPoolFacts.positive_not_leb_zero _ Hpos). reflexivity.
Qed.

Lemma zero_total_withdraw_fails playerEoa pool now :
  totalAmount pool = lit 0 0 →
  withdrawFromRewardPool playerEoa pool now
    = (WithdrawFailed "No funds available in reward pool" (lit 0 0), pool).
Proof. intros Hzero. unfold withdrawFromRewardPool. rewrite Hzero. reflexivity. Qed.

(** X10: the winner takes everything.  Right after any withdrawal, paid or
    refused, and right after a reset, a withdrawal is refused with 'No
    funds available in reward pool' and changes nothing; it takes a
    deposit that reads above 0 to make the next withdrawal pay, and that
    one pays exactly this deposit. *)
Theorem withdraw_after_withdraw_is_refused playerEoa pool now now' :
  let refused := (WithdrawFailed "No funds available in reward pool" (lit 0 0)) in
  (let pool1 := snd (withdrawFromRewardPool playerEoa pool now) in
   withdrawFromRewardPool playerEoa pool1 now' = (refused, pool1))
  ∧ (let pool1 := snd (resetRewardPool playerEoa pool now) in
     withdrawFromRewardPool playerEoa pool1 now' = (refused, pool1))
  ∧ (∀ amount,
       ltb zero (parseFloat amount) = true →
       let pool1 := snd (withdrawFromRewardPool playerEoa pool now) in
       totalAmount pool1 = lit 0 0 →
       let pool2 := snd (addToRewardPool amount playerEoa pool1 now') in
       fst (withdrawFromRewardPool playerEoa pool2 now')
         = Withdrawn (toString (parseFloat amount)) (lit 0 0)).
Proof.
  cbv zeta. split; [|split].
  - unfold withdrawFromRewardPool at 2 3.
    destruct (leb (parseFloat (totalAmount pool)) zero) eqn:Hle; cbn [snd].
    + unfold withdrawFromRewardPool. rewrite Hle. reflexivity.
    + apply zero_total_withdraw_fails. reflexivity.
  - apply zero_total_withdraw_fails. reflexivity.
  - intros amount Hpos Hzero.
    unfold addToRewardPool. cbn [snd]. rewrite Hzero.
    change (parseFloat (lit 0 0)) with zero.
    rewrite (RewardPoolFacts.add_zero_positive _ Hpos).
    unfold withdrawFromRewardPool. cbn [totalAmount parseFloat toString].
    rewrite (RewardPoolFacts.positive_not_leb_zero _ Hpos). reflexivity.
Qed.

Lemma perform_counts op pool now :
  Ledger.isReset (op, now) = false →
  totalLosses (perform op pool now)
    = totalLosses pool + Ledger.deposits [(op, now)]
  ∧ totalWins pool <= totalWins (perform op pool now)
      <= totalWins pool + Ledger.withdrawals [(op, now)].
Proof.
  destruct op as [amount playerEoa | playerEoa | adminEoa]; cbn; intros Hreset.
  - lia.
  - unfold withdrawFromRewardPool.
    destruct (leb (parseFloat (totalAmount pool)) zero); cbn; lia.
  - discriminate.
Qed.

Lemma perform_counted op pool now :
  Ledger.counted pool → Ledger.counted (perform op pool now).
Proof.
  unfold Ledger.counted.
  destruct op as [amount playerEoa | playerEoa | adminEoa]; cbn; intros (? & ? & ?).
  - lia.
  - unfold withdrawFromRewardPool.
    destruct (leb (parseFloat (totalAmount pool)) zero); cbn; lia.
  - lia.
Qed.

(** X11: the ledger counts games.  After any sequence of operations the
    three counters of a pool that had none negative are not negative; and
    along a sequence without reset, [totalLosses] grows by the number of
    deposits, and [totalWins] by at most the number of withdrawals asked
    for and never shrinks (a refused withdrawal is not counted). *)
Theorem ledger_counts_games ops : ∀ pool,
  (Ledger.counted pool → Ledger.counted (Ledger.performAll ops pool))
  ∧ (Forall (λ op, Ledger.isReset op = false) ops →
     totalLosses (Ledger.performAll ops pool)
       = totalLosses pool + Ledger.deposits ops
     ∧ totalWins pool <= totalWins (Ledger.performAll ops pool)
         <= totalWins pool + Ledger.withdrawals ops).
Proof.
  induction ops as [|[op now] rest IH]; intros pool.
  - cbn. split; [auto | intros _; lia].
  - cbn [Ledger.performAll]. destruct (IH (perform op pool now)) as [IHc IHn]. split.
    + intros Hc. apply IHc, perform_counted, Hc.
    + intros Hno. apply Forall_cons in Hno as [Hop Hrest].
      destruct (IHn Hrest) as [Hl Hw].
      destruct (perform_counts op pool now Hop) as [Hl1 Hw1].
      assert (Ledger.deposits ((op, now) :: rest)
              = Ledger.deposits [(op, now)] + Ledger.deposits rest) as ->
        by (destruct op; cbn; lia).
      assert (Ledger.withdrawals ((op, now) :: rest)
              = Ledger.withdrawals [(op, now)] + Ledger.withdrawals rest) as ->
        by (destruct op; cbn; lia).
      lia.
Qed.

End PoolFacts.

(** * More properties of the room manager *)

Module RoomOpsFacts.
Import Amount RoomManager RoomOps.

Lemma validateEntryDeposit_Valid playerEoa deposit :
  RewardPool.validateEntryDeposit playerEoa deposit = RewardPool.Valid
  ↔ ltb (parseFloat deposit) zero = false.
Proof.
  unfold RewardPool.validateEntryDeposit.
  destruct (ltb (parseFloat deposit) zero); [split; discriminate|].
  destruct (eqb (parseFloat deposit) zero); split; reflexivity.
Qed.

Lemma lookup_foldr_delete (keys : list string) (index : gmap string string) k :
  foldr delete index keys !! k = if decide (k ∈ keys) then None else index !! k.
Proof.
  induction keys as [|k' keys IH]; cbn [foldr].
  - rewrite decide_False by apply not_elem_of_nil. reflexivity.
  - destruct (decide (k = k')) as [-> | Hne].
    + rewrite lookup_delete_eq, decide_True by (apply elem_of_cons; auto). reflexivity.
    + rewrite lookup_delete_ne by congruence. rewrite IH.
      destruct (decide (k ∈ keys)) as [Hin | Hout].
      * rewrite decide_True by (apply elem_of_cons; auto). reflexivity.
      * rewrite decide_False; [reflexivity|].
        intros Hin. apply elem_of_cons in Hin as [? | ?]; contradiction.
Qed.

Lemma elem_of_connectionKeys room k :
  k ∈ connectionKeys room ↔ is_Some (connections room !! k).
Proof.
  unfold connectionKeys. rewrite list_elem_of_fmap. split.
  - intros [[k' c] [-> Hin]]. apply elem_of_map_to_list in Hin. eauto.
  - intros [c Hc]. exists (k, c). split; [reflexivity|].
    apply elem_of_map_to_list. exact Hc.
Qed.

Section WithEthers.
Context `{Ethers}.

Lemma joinRoom_Joined_effect roomId eoa0 ws0 m info :
  fst (joinRoom roomId eoa0 ws0 m) = Normal (Joined info) →
  ∃ k room,
    getAddress eoa0 = Some k
    ∧ addressToRoom m !! k = None
    ∧ rooms m !! roomId = Some room
    ∧ truthy (eoa (player room)) = false
    ∧ RewardPool.validateEntryDeposit k (entryDeposit (player room)) = RewardPool.Valid
    ∧ snd (joinRoom roomId eoa0 ws0 m)
        = {| rooms := <[roomId := joinedRoom room k ws0]> (rooms m);
             addressToRoom := <[k := roomId]> (addressToRoom m) |}
    ∧ info = {| joinedRoomId := roomId; joinedRole := "player"; isRoomReady := true;
                joinedEntryDeposit := entryDeposit (player room);
                joinedRewardInfo := rewardInfo room |}.
Proof.
  unfold joinRoom.
  destruct (getAddress eoa0) as [k|]; [|discriminate].
  case_bool_decide as Hin; [discriminate|].
  destruct (rooms m !! roomId) as [room|]; [|discriminate].
  destruct (truthy (eoa (player room))) eqn:Hocc; [discriminate|].
  destruct (RewardPool.validateEntryDeposit k (entryDeposit (player room))) eqn:Hval;
    [|discriminate].
  cbn. intros [= <-]. exists k, room. repeat split; try reflexivity; try assumption.
  destruct (addressToRoom m !! k) eqn:Hlook; [|reflexivity].
  exfalso. apply Hin. eauto.
Qed.

Lemma joinRoom_not_Joined roomId eoa0 ws0 m :
  (∀ info, fst (joinRoom roomId eoa0 ws0 m) ≠ Normal (Joined info)) →
  snd (joinRoom roomId eoa0 ws0 m) = m.
Proof.
  unfold joinRoom.
  destruct (getAddress eoa0) as [k|]; [|reflexivity].
  case_bool_decide; [reflexivity|].
  destruct (rooms m !! roomId) as [room|]; [|reflexivity].
  destruct (truthy (eoa (player room))); [reflexivity|].
  destruct (RewardPool.validateEntryDeposit k (entryDeposit (player room)));
    [|reflexivity].
  intros Hno. exfalso. eapply Hno. reflexivity.
Qed.

(** X12: [joinRoom] succeeds exactly when the identity is not in the
    index, the room exists, the room has no occupant and its entry deposit
    does not read below 0 (a deposit that is not a number passes).  A
    success puts the identity in the index under this room, makes it the
    occupant with one more connection of role 'player', marks the room
    ready, touches nothing else of the room, and answers with the room's
    deposit and the reward information stored in the room. *)
Theorem joinRoom_succeeds_exactly_when roomId eoa0 ws0 m k :
  getAddress eoa0 = Some k →
  ((∃ info, fst (joinRoom roomId eoa0 ws0 m) = Normal (Joined info))
   ↔ addressToRoom m !! k = None
     ∧ ∃ room, rooms m !! roomId = Some room
               ∧ truthy (eoa (player room)) = false
               ∧ ltb (parseFloat (entryDeposit (player room))) zero = false)
  ∧ (∀ room, rooms m !! roomId = Some room →
       addressToRoom m !! k = None →
       truthy (eoa (player room)) = false →
       parseFloat (entryDeposit (player room)) = S754_nan →
       ∃ info, fst (joinRoom roomId eoa0 ws0 m) = Normal (Joined info))
  ∧ (∀ info, fst (joinRoom roomId eoa0 ws0 m) = Normal (Joined info) →
       ∃ room room',
         rooms m !! roomId = Some room
         ∧ snd (joinRoom roomId eoa0 ws0 m)
             = {| rooms := <[roomId := room']> (rooms m);
                  addressToRoom := <[k := roomId]> (addressToRoom m) |}
         ∧ player room' = {| eoa := Some k; entryDeposit := entryDeposit (player room) |}
         ∧ connections room'
             = <[k := {| ws := ws0; role := "player" |}]> (connections room)
         ∧ isReady room' = true
         ∧ id room' = id room
         ∧ gameState room' = gameState room
         ∧ gameStarted room' = gameStarted room
         ∧ difficulty room' = difficulty room
         ∧ rewardInfo room' = rewardInfo room
         ∧ createdAt room' = createdAt room
         ∧ info = {| joinedRoomId := roomId; joinedRole := "player";
                     isRoomReady := true;
                     joinedEntryDeposit := entryDeposit (player room);
                     joinedRewardInfo := rewardInfo room |}).
Proof.
  intros Hk. unfold joinRoom. rewrite Hk. split; [|split].
  - split.
    + intros [info Hjoin].
      case_bool_decide as Hin; [discriminate|].
      destruct (rooms m !! roomId) as [room|]; [|discriminate].
      destruct (truthy (eoa (player room))) eqn:Hocc; [discriminate|].
      destruct (RewardPool.validateEntryDeposit k (entryDeposit (player room)))
        eqn:Hval; [|discriminate].
      split.
      * destruct (addressToRoom m !! k) eqn:Hlook; [|reflexivity].
        exfalso. apply Hin. eauto.
      * exists room. split; [reflexivity|]. split; [exact Hocc|].
        apply validateEntryDeposit_Valid in Hval. exact Hval.
    + intros (Hfree & room & Hroom & Hocc & Hdep).
      rewrite Hfree, Hroom, Hocc.
      rewrite bool_decide_eq_false_2 by (intros [? ?]; discriminate).
      apply (validateEntryDeposit_Valid k) in Hdep. rewrite Hdep. eauto.
  - intros room Hroom Hfree Hocc Hnan.
    rewrite Hfree, Hroom, Hocc.
    rewrite bool_decide_eq_false_2 by (intros [? ?]; discriminate).
    unfold RewardPool.validateEntryDeposit. rewrite Hnan. cbn. eauto.
  - intros info Hjoin.
    case_bool_decide as Hin; [discriminate|].
    destruct (rooms m !! roomId) as [room|]; [|discriminate].
    destruct (truthy (eoa (player room))) eqn:Hocc; [discriminate|].
    destruct (RewardPool.validateEntryDeposit k (entryDeposit (player room)));
      [|discriminate].
    cbn in Hjoin. injection Hjoin as <-.
    exists room, (joinedRoom room k ws0). repeat split; reflexivity.
Qed.

(** X13: a room that [createRoom] just made can be joined.  [createRoom]
    leaves the index and the other rooms alone; an identity that is not in
    the index joins the new room with success when the deposit does not
    read below 0, and is told the deposit the room was created with
    ('0.01' when none was given) and the reward information computed from
    the pool as it was when the room was created. *)
Theorem created_room_can_be_joined
    entryDeposit difficulty roomId pool now m eoa0 ws0 k :
  getAddress eoa0 = Some k →
  addressToRoom m !! k = None →
  ltb (parseFloat (default (lit 1 2) entryDeposit)) zero = false →
  let created := createRoom entryDeposit difficulty roomId pool now m in
  fst created = roomId
  ∧ addressToRoom (snd created) = addressToRoom m
  ∧ (∀ r, r ≠ roomId → rooms (snd created) !! r = rooms m !! r)
  ∧ fst (joinRoom roomId eoa0 ws0 (snd created))
      = Normal (Joined
          {| joinedRoomId := roomId; joinedRole := "player"; isRoomReady := true;
             joinedEntryDeposit := default (lit 1 2) entryDeposit;
             joinedRewardInfo :=
               RewardPool.calculatePotentialReward
                 (default (lit 1 2) entryDeposit) pool |})
  ∧ addressToRoom (snd (joinRoom roomId eoa0 ws0 (snd created))) !! k = Some roomId.
Proof.
  intros Hk Hfree Hdep created. subst created. unfold createRoom. cbn [fst snd].
  split; [reflexivity|]. split; [reflexivity|].
  split; [intros r Hr; cbn; apply lookup_insert_ne; congruence|].
  unfold joinRoom. rewrite Hk. cbn [addressToRoom rooms]. rewrite Hfree.
  rewrite bool_decide_eq_false_2 by (intros [? ?]; discriminate).
  rewrite lookup_insert_eq. cbn [player eoa truthy RoomManager.entryDeposit].
  apply (validateEntryDeposit_Valid k) in Hdep. rewrite Hdep. cbn.
  split; [reflexivity | apply lookup_insert_eq].
Qed.

(** X14: [leaveRoom] answers 'Player not in any room' and changes nothing
    for an identity that is not in the index.  For an identity of the
    index it answers with the room the index held, takes the identity out
    of the index and the room out of the rooms, touches no other index
    entry and no other room, and a second [leaveRoom] then answers 'Player
    not in any room'. *)
Theorem leaveRoom_frees_identity_and_room eoa0 m k :
  getAddress eoa0 = Some k →
  (addressToRoom m !! k = None →
   leaveRoom eoa0 m = (Normal (LeaveFailed "Player not in any room"), m))
  ∧ (∀ roomId, addressToRoom m !! k = Some roomId →
       fst (leaveRoom eoa0 m) = Normal (Left roomId)
       ∧ addressToRoom (snd (leaveRoom eoa0 m)) !! k = None
       ∧ rooms (snd (leaveRoom eoa0 m)) !! roomId = None
       ∧ (∀ k', k' ≠ k →
            addressToRoom (snd (leaveRoom eoa0 m)) !! k' = addressToRoom m !! k')
       ∧ (∀ r, r ≠ roomId → rooms (snd (leaveRoom eoa0 m)) !! r = rooms m !! r)
       ∧ leaveRoom eoa0 (snd (leaveRoom eoa0 m))
           = (Normal (LeaveFailed "Player not in any room"), snd (leaveRoom eoa0 m))).
Proof.
  intros Hk. split.
  - intros Hfree. unfold leaveRoom. rewrite Hk, Hfree. reflexivity.
  - intros roomId Hin.
    assert (leaveRoom eoa0 m
            = (Normal (Left roomId),
               {| rooms := delete roomId (rooms m);
                  addressToRoom := delete k (addressToRoom m) |})) as ->.
    { unfold leaveRoom. rewrite Hk, Hin.
      destruct (rooms m !! roomId) eqn:Hroom; [reflexivity|].
      rewrite (delete_id _ _ Hroom). reflexivity. }
    cbn [fst snd rooms addressToRoom].
    split; [reflexivity|]. split; [apply lookup_delete_eq|].
    split; [apply lookup_delete_eq|].
    split; [intros k' Hne; apply lookup_delete_ne; congruence|].
    split; [intros r Hne; apply lookup_delete_ne; congruence|].
    unfold leaveRoom. rewrite Hk. cbn [addressToRoom].
    rewrite lookup_delete_eq. reflexivity.
Qed.

(** X15: joining and leaving.  After a successful [joinRoom], [leaveRoom]
    of the same identity answers with that room, puts the index back to
    what it was before the join and removes the room: the room is gone for
    everybody, a new [joinRoom] to it answers 'Room not found'. *)
Theorem join_then_leave_removes_the_room roomId eoa0 ws0 m info :
  fst (joinRoom roomId eoa0 ws0 m) = Normal (Joined info) →
  let m1 := snd (joinRoom roomId eoa0 ws0 m) in
  let m2 := snd (leaveRoom eoa0 m1) in
  fst (leaveRoom eoa0 m1) = Normal (Left roomId)
  ∧ addressToRoom m2 = addressToRoom m
  ∧ rooms m2 = delete roomId (rooms m)
  ∧ joinRoom roomId eoa0 ws0 m2 = (Normal (JoinFailed "Room not found"), m2)
  ∧ ∀ eoa2 ws2 k2, getAddress eoa2 = Some k2 → addressToRoom m !! k2 = None →
      joinRoom roomId eoa2 ws2 m2 = (Normal (JoinFailed "Room not found"), m2).
Proof.
  intros Hjoin m1 m2.
  destruct (joinRoom_Joined_effect _ _ _ _ _ Hjoin)
    as (k & room & Hk & Hfree & Hroom & _ & _ & Hm1 & _).
  assert (leaveRoom eoa0 m1
          = (Normal (Left roomId),
             {| rooms := delete roomId (rooms m); addressToRoom := addressToRoom m |}))
    as Hleave.
  { subst m1. rewrite Hm1. unfold leaveRoom. rewrite Hk. cbn [addressToRoom rooms].
    rewrite !lookup_insert_eq, !delete_insert_eq, (delete_id _ _ Hfree). reflexivity. }
  subst m2. rewrite Hleave. cbn [fst snd rooms addressToRoom].
  split; [reflexivity|]. split; [reflexivity|]. split; [reflexivity|].
  assert (∀ eoa2 ws2 k2, getAddress eoa2 = Some k2 → addressToRoom m !! k2 = None →
          joinRoom roomId eoa2 ws2
            {| rooms := delete roomId (rooms m); addressToRoom := addressToRoom m |}
          = (Normal (JoinFailed "Room not found"),
             {| rooms := delete roomId (rooms m); addressToRoom := addressToRoom m |}))
    as Hgone.
  { intros eoa2 ws2 k2 Hk2 Hfree2. unfold joinRoom. rewrite Hk2.
    cbn [addressToRoom rooms]. rewrite Hfree2, lookup_delete_eq.
    rewrite bool_decide_eq_false_2 by (intros [? ?]; discriminate). reflexivity. }
  split; [exact (Hgone eoa0 ws0 k Hk Hfree) | exact Hgone].
Qed.

Lemma connectionKeys_single k c :
  fst <$> map_to_list (<[k := c]> (∅ : gmap string Connection)) = [k].
Proof. rewrite insert_empty, map_to_list_singleton. reflexivity. Qed.

(** X16: [closeRoom] does nothing for a room id that is absent; otherwise
    it removes the room and takes out of the index every identity that has
    a connection in the room, and no other; no other room is touched, and
    closing twice is closing once.  Closing a room that was joined when it
    had no connection frees its occupant: index and rooms are what they
    were before the join, less the room. *)
Theorem closeRoom_removes_room_and_frees_its_players roomId m :
  (rooms m !! roomId = None → closeRoom roomId m = m)
  ∧ rooms (closeRoom roomId m) !! roomId = None
  ∧ closeRoom roomId (closeRoom roomId m) = closeRoom roomId m
  ∧ (∀ r, r ≠ roomId → rooms (closeRoom roomId m) !! r = rooms m !! r)
  ∧ (∀ room k, rooms m !! roomId = Some room →
       (is_Some (connections room !! k) →
        addressToRoom (closeRoom roomId m) !! k = None)
       ∧ (connections room !! k = None →
          addressToRoom (closeRoom roomId m) !! k = addressToRoom m !! k))
  ∧ (∀ eoa0 ws0 info room,
       rooms m !! roomId = Some room →
       connections room = ∅ →
       fst (joinRoom roomId eoa0 ws0 m) = Normal (Joined info) →
       closeRoom roomId (snd (joinRoom roomId eoa0 ws0 m))
         = {| rooms := delete roomId (rooms m); addressToRoom := addressToRoom m |}).
Proof.
  split; [intros Habsent; unfold closeRoom; rewrite Habsent; reflexivity|].
  assert (rooms (closeRoom roomId m) !! roomId = None) as Hgone.
  { unfold closeRoom. destruct (rooms m !! roomId) eqn:Hroom; [|exact Hroom].
    apply lookup_delete_eq. }
  split; [exact Hgone|].
  split; [unfold closeRoom at 1; rewrite Hgone; reflexivity|].
  split.
  { intros r Hne. unfold closeRoom. destruct (rooms m !! roomId); [|reflexivity].
    apply lookup_delete_ne. congruence. }
  split.
  { intros room k Hroom. unfold closeRoom. rewrite Hroom. cbn [addressToRoom].
    rewrite lookup_foldr_delete. split.
    - intros Hin. rewrite decide_True by (apply elem_of_connectionKeys, Hin). reflexivity.
    - intros Hout. rewrite decide_False; [reflexivity|].
      rewrite elem_of_connectionKeys, Hout. intros [? ?]; discriminate. }
  intros eoa0 ws0 info room Hroom Hnone Hjoin.
  destruct (joinRoom_Joined_effect _ _ _ _ _ Hjoin)
    as (k & room0 & Hk & Hfree & Hroom0 & _ & _ & -> & _).
  assert (room0 = room) as -> by congruence.
  unfold closeRoom. cbn [rooms addressToRoom]. rewrite lookup_insert_eq.
  unfold connectionKeys, joinedRoom. cbn [connections]. rewrite Hnone.
  rewrite connectionKeys_single. cbn [foldr].
  rewrite !delete_insert_eq, (delete_id _ _ Hfree). reflexivity.
Qed.

(** *** Actions through the room manager *)

Lemma engine_keeps_argument_unless_success gs action playerEoa now :
  (∀ gs', fst (LockBlock.processAction gs action playerEoa now)
          ≠ Normal (LockBlock.Success gs')) →
  snd (LockBlock.processAction gs action playerEoa now) = gs.
Proof.
  unfold LockBlock.processAction.
  destruct (getAddress playerEoa) as [k|]; [|reflexivity].
  destruct (LockBlock.isGameOver gs); [reflexivity|].
  destruct (negb _); [reflexivity|].
  destruct (LockBlock.dispatch gs action) as [[[updated argument]|]|]; try reflexivity.
  intros Hno. exfalso. eapply Hno. reflexivity.
Qed.

Lemma withRoom_same m roomId room :
  rooms m !! roomId = Some room →
  withRoom m roomId (withGameState room (gameState room)) = m.
Proof.
  intros Hroom. destruct m as [rs index]. unfold withRoom. cbn in *. f_equal.
  apply insert_id. rewrite Hroom. f_equal. destruct room; reflexivity.
Qed.

Lemma processPlayerAction_unfold roomId action eoa0 m now k room gs :
  getAddress eoa0 = Some k →
  rooms m !! roomId = Some room →
  is_Some (connections room !! k) →
  gameState room = Some gs →
  processPlayerAction roomId action eoa0 m now =
    match LockBlock.processAction gs action k now with
    | (Normal (LockBlock.Success gs'), _) =>
        (Normal (Played gs' (LockBlock.isGameOver gs') (LockBlock.gameResult gs')),
         withRoom m roomId (withGameState room (Some gs')))
    | (Normal (LockBlock.Failure error), _) => (Normal (PlayFailed error), m)
    | (Throw e, _) => (Throw e, m)
    end.
Proof.
  intros Hk Hroom Hconn Hgs. unfold processPlayerAction.
  rewrite Hk, Hroom, Hgs, bool_decide_eq_true_2 by exact Hconn. cbn [negb].
  pose proof (engine_keeps_argument_unless_success gs action k now) as Hkeep.
  destruct (LockBlock.processAction gs action k now) as [[[gs'|error]|e] gs0];
    [reflexivity | |];
    cbn [fst snd] in Hkeep; rewrite Hkeep by (intros gs'; discriminate);
    rewrite <- Hgs, (withRoom_same _ _ _ Hroom); reflexivity.
Qed.

(** X18: [processPlayerAction] answers 'Room not found' for an absent room
    id, otherwise 'Player not in this room' for a requester without a
    connection in the room, otherwise 'Game has not started' when the room
    has no game state; whenever it does not report a played action, also
    when the engine rejects the action or raises, the manager is left as
    it was.  A played action replaces the game state of that one room by
    the state it reports, with the flags of that state, and changes
    nothing else. *)
Theorem processPlayerAction_changes_one_game_state roomId action eoa0 m now k :
  getAddress eoa0 = Some k →
  (rooms m !! roomId = None →
   processPlayerAction roomId action eoa0 m now
     = (Normal (PlayFailed "Room not found"), m))
  ∧ (∀ room, rooms m !! roomId = Some room → connections room !! k = None →
       processPlayerAction roomId action eoa0 m now
         = (Normal (PlayFailed "Player not in this room"), m))
  ∧ (∀ room, rooms m !! roomId = Some room → is_Some (connections room !! k) →
       gameState room = None →
       processPlayerAction roomId action eoa0 m now
         = (Normal (PlayFailed "Game has not started"), m))
  ∧ ((∀ gs over result,
        fst (processPlayerAction roomId action eoa0 m now)
        ≠ Normal (Played gs over result)) →
     snd (processPlayerAction roomId action eoa0 m now) = m)
  ∧ (∀ gs' over result,
       fst (processPlayerAction roomId action eoa0 m now)
         = Normal (Played gs' over result) →
       over = LockBlock.isGameOver gs'
       ∧ result = LockBlock.gameResult gs'
       ∧ ∃ room gs,
           rooms m !! roomId = Some room
           ∧ gameState room = Some gs
           ∧ fst (LockBlock.processAction gs action k now)
               = Normal (LockBlock.Success gs')
           ∧ snd (processPlayerAction roomId action eoa0 m now)
               = withRoom m roomId (withGameState room (Some gs'))).
Proof.
  intros Hk.
  split; [intros Hroom; unfold processPlayerAction; rewrite Hk, Hroom; reflexivity|].
  split.
  { intros room Hroom Hconn. unfold processPlayerAction. rewrite Hk, Hroom, Hconn.
    rewrite bool_decide_eq_false_2 by (intros [? ?]; discriminate). reflexivity. }
  split.
  { intros room Hroom Hconn Hgs. unfold processPlayerAction. rewrite Hk, Hroom, Hgs.
    rewrite bool_decide_eq_true_2 by exact Hconn. reflexivity. }
  assert (∀ room gs, rooms m !! roomId = Some room →
          is_Some (connections room !! k) → gameState room = Some gs →
          processPlayerAction roomId action eoa0 m now =
            match LockBlock.processAction gs action k now with
            | (Normal (LockBlock.Success gs'), _) =>
                (Normal (Played gs' (LockBlock.isGameOver gs') (LockBlock.gameResult gs')),
                 withRoom m roomId (withGameState room (Some gs')))
            | (Normal (LockBlock.Failure error), _) => (Normal (PlayFailed error), m)
            | (Throw e, _) => (Throw e, m)
            end) as Hrun
    by (intros; apply processPlayerAction_unfold; assumption).
  split.
  - intros Hno. unfold processPlayerAction in Hno |- *. rewrite Hk in Hno |- *.
    destruct (rooms m !! roomId) as [room|] eqn:Hroom; [|reflexivity].
    destruct (bool_decide (is_Some (connections room !! k))) eqn:Hconn; [|reflexivity].
    apply bool_decide_eq_true_1 in Hconn. cbn [negb] in Hno |- *.
    destruct (gameState room) as [gs|] eqn:Hgs; [|reflexivity].
    pose proof (engine_keeps_argument_unless_success gs action k now) as Hkeep.
    destruct (LockBlock.processAction gs action k now) as [[[gs'|error]|e] gs0];
      cbn [fst snd] in *.
    + exfalso. eapply Hno. reflexivity.
    + rewrite Hkeep by (intros gs'; discriminate).
      rewrite <- Hgs. apply withRoom_same, Hroom.
    + rewrite Hkeep by (intros gs'; discriminate).
      rewrite <- Hgs. apply withRoom_same, Hroom.
  - intros gs' over result Hplayed.
    unfold processPlayerAction in Hplayed. rewrite Hk in Hplayed.
    destruct (rooms m !! roomId) as [room|] eqn:Hroom; [|discriminate].
    destruct (bool_decide (is_Some (connections room !! k))) eqn:Hconn; [|discriminate].
    apply bool_decide_eq_true_1 in Hconn. cbn [negb] in Hplayed.
    destruct (gameState room) as [gs|] eqn:Hgs; [|discriminate].
    rewrite (Hrun room gs eq_refl Hconn Hgs).
    destruct (LockBlock.processAction gs action k now) as [[[gs1|error]|e] gs0]
      eqn:Hstep; try discriminate.
    cbn in Hplayed. injection Hplayed as <- <- <-.
    split; [reflexivity|]. split; [reflexivity|].
    exists room, gs. rewrite Hstep. repeat split; auto.
Qed.

(** X19: a finished game stays finished in its room.  Once
    [processPlayerAction] has reported a played action that ended the
    game, every further action of that player in that room is answered
    with 'Game is already over' and changes nothing, room and index
    included; the canonicalizer has to accept the canonical spelling it
    returned, since the engine canonicalizes the requester once more. *)
Theorem finished_game_stays_finished_in_its_room
    roomId action eoa0 m now k gs' result :
  getAddress eoa0 = Some k →
  is_Some (getAddress k) →
  fst (processPlayerAction roomId action eoa0 m now)
    = Normal (Played gs' true result) →
  let m1 := snd (processPlayerAction roomId action eoa0 m now) in
  ∀ action2 now2,
    processPlayerAction roomId action2 eoa0 m1 now2
      = (Normal (PlayFailed "Game is already over"), m1).
Proof.
  intros Hk [k' Hk'] Hplayed m1 action2 now2.
  assert (∃ room, rooms m !! roomId = Some room
                  ∧ is_Some (connections room !! k)
                  ∧ LockBlock.isGameOver gs' = true
                  ∧ m1 = withRoom m roomId (withGameState room (Some gs')))
    as (room & Hroom & Hconn & Hover & Hm1).
  { subst m1. unfold processPlayerAction in Hplayed |- *. rewrite Hk in Hplayed |- *.
    destruct (rooms m !! roomId) as [room|] eqn:Hroom; [|discriminate].
    destruct (bool_decide (is_Some (connections room !! k))) eqn:Hconn; [|discriminate].
    apply bool_decide_eq_true_1 in Hconn. cbn [negb] in Hplayed |- *.
    destruct (gameState room) as [gs|] eqn:Hgs; [|discriminate].
    destruct (LockBlock.processAction gs action k now) as [[[gs1|error]|e] gs0];
      try discriminate.
    cbn in Hplayed. injection Hplayed as <- Hover _.
    exists room. repeat split; auto. }
  rewrite (processPlayerAction_unfold roomId action2 eoa0 m1 now2 k
             (withGameState room (Some gs')) gs' Hk);
    [| rewrite Hm1; apply lookup_insert_eq | exact Hconn | reflexivity].
  unfold LockBlock.processAction. rewrite Hk', Hover. reflexivity.
Qed.

(** *** The index invariant *)

Lemma consistent_unoccupied m roomId room :
  consistent m → rooms m !! roomId = Some room →
  truthy (eoa (player room)) = false →
  eoa (player room) = None ∧ connections room = ∅.
Proof.
  intros [_ Hrooms] Hroom Hocc. specialize (Hrooms roomId room Hroom).
  destruct (eoa (player room)) as [k0|]; [|auto].
  destruct Hrooms as (Hne & _). cbn in Hocc.
  destruct (String.eqb_spec k0 ""); [contradiction | discriminate].
Qed.

Lemma consistent_createRoom entryDeposit difficulty roomId pool now m :
  consistent m → rooms m !! roomId = None →
  consistent (snd (createRoom entryDeposit difficulty roomId pool now m)).
Proof.
  intros [Hindex Hrooms] Hfresh. unfold createRoom. cbn [snd]. split; cbn [rooms addressToRoom].
  - intros k r Hk. destruct (Hindex k r Hk) as (room & Hroom & Hocc).
    exists room. split; [|exact Hocc].
    rewrite lookup_insert_ne; [exact Hroom | congruence].
  - intros r room Hroom.
    destruct (decide (r = roomId)) as [-> | Hne].
    + rewrite lookup_insert_eq in Hroom. injection Hroom as <-. reflexivity.
    + rewrite lookup_insert_ne in Hroom by congruence. exact (Hrooms r room Hroom).
Qed.

Lemma consistent_joinRoom roomId eoa0 ws0 m :
  (∀ a k, getAddress a = Some k → k ≠ "") →
  consistent m → consistent (snd (joinRoom roomId eoa0 ws0 m)).
Proof.
  intros Hnonempty Hm.
  destruct (fst (joinRoom roomId eoa0 ws0 m)) as [[info|error]|e] eqn:Hjoin;
    [| rewrite joinRoom_not_Joined; [exact Hm | intros info; rewrite Hjoin; discriminate]
     | rewrite joinRoom_not_Joined; [exact Hm | intros info; rewrite Hjoin; discriminate]].
  destruct (joinRoom_Joined_effect _ _ _ _ _ Hjoin)
    as (k & room & Hk & Hfree & Hroom & Hocc & _ & -> & _).
  destruct (consistent_unoccupied _ _ _ Hm Hroom Hocc) as [Hnone Hconn].
  destruct Hm as [Hindex Hrooms]. split; cbn [rooms addressToRoom].
  - intros k' r Hk'. destruct (decide (k' = k)) as [-> | Hne].
    + rewrite lookup_insert_eq in Hk'. injection Hk' as <-.
      exists (joinedRoom room k ws0). split; [apply lookup_insert_eq | reflexivity].
    + rewrite lookup_insert_ne in Hk' by congruence.
      destruct (Hindex k' r Hk') as (room0 & Hroom0 & Hocc0).
      exists room0. split; [|exact Hocc0].
      rewrite lookup_insert_ne; [exact Hroom0|].
      intros <-. congruence.
  - intros r room0 Hroom0. destruct (decide (r = roomId)) as [-> | Hne].
    + rewrite lookup_insert_eq in Hroom0. injection Hroom0 as <-.
      cbn [joinedRoom player eoa connections]. rewrite Hconn.
      split; [exact (Hnonempty _ _ Hk)|].
      split; [rewrite dom_insert_L, dom_empty_L; apply union_empty_r_L
             | apply lookup_insert_eq].
    + rewrite lookup_insert_ne in Hroom0 by congruence.
      specialize (Hrooms r room0 Hroom0).
      destruct (eoa (player room0)) as [k0|]; [|exact Hrooms].
      destruct Hrooms as (Hne0 & Hdom & Hpoint). repeat split; try assumption.
      rewrite lookup_insert_ne; [exact Hpoint | congruence].
Qed.

Lemma consistent_remove m roomId room k :
  consistent m →
  rooms m !! roomId = Some room →
  eoa (player room) = Some k →
  consistent {| rooms := delete roomId (rooms m);
                addressToRoom := delete k (addressToRoom m) |}.
Proof.
  intros [Hindex Hrooms] Hroom Hocc.
  pose proof (Hrooms roomId room Hroom) as Hthis. rewrite Hocc in Hthis.
  destruct Hthis as (_ & _ & Hpoint).
  split; cbn [rooms addressToRoom].
  - intros k' r Hk'. apply lookup_delete_Some in Hk' as [Hne Hk'].
    destruct (Hindex k' r Hk') as (room0 & Hroom0 & Hocc0).
    exists room0. split; [|exact Hocc0].
    rewrite lookup_delete_ne; [exact Hroom0|]. intros <-. congruence.
  - intros r room0 Hroom0. apply lookup_delete_Some in Hroom0 as [Hne Hroom0].
    specialize (Hrooms r room0 Hroom0).
    destruct (eoa (player room0)) as [k0|]; [|exact Hrooms].
    destruct Hrooms as (Hne0 & Hdom & Hpoint0). repeat split; try assumption.
    rewrite lookup_delete_ne; [exact Hpoint0|]. intros <-. congruence.
Qed.

Lemma consistent_leaveRoom eoa0 m :
  consistent m → consistent (snd (leaveRoom eoa0 m)).
Proof.
  intros Hm. unfold leaveRoom.
  destruct (getAddress eoa0) as [k|]; [|exact Hm].
  destruct (addressToRoom m !! k) as [roomId|] eqn:Hk; [|exact Hm].
  destruct (proj1 Hm k roomId Hk) as (room & Hroom & Hocc).
  rewrite Hroom. cbn [snd]. exact (consistent_remove _ _ _ _ Hm Hroom Hocc).
Qed.

Lemma consistent_closeRoom roomId m :
  consistent m → consistent (closeRoom roomId m).
Proof.
  intros Hm. unfold closeRoom.
  destruct (rooms m !! roomId) as [room|] eqn:Hroom; [|exact Hm].
  pose proof (proj2 Hm roomId room Hroom) as Hthis.
  destruct (eoa (player room)) as [k|] eqn:Hocc.
  - destruct Hthis as (_ & Hdom & _).
    apply dom_singleton_inv_L in Hdom as [c Hc].
    unfold connectionKeys. rewrite Hc, map_to_list_singleton. cbn [fmap list_fmap foldr].
    exact (consistent_remove _ _ _ _ Hm Hroom Hocc).
  - unfold connectionKeys. rewrite Hthis, map_to_list_empty. cbn [fmap list_fmap foldr].
    destruct Hm as [Hindex Hrooms]. split; cbn [rooms addressToRoom].
    + intros k r Hk. destruct (Hindex k r Hk) as (room0 & Hroom0 & Hocc0).
      exists room0. split; [|exact Hocc0].
      rewrite lookup_delete_ne; [exact Hroom0|]. intros <-. congruence.
    + intros r room0 Hroom0. apply lookup_delete_Some in Hroom0 as [Hne Hroom0].
      exact (Hrooms r room0 Hroom0).
Qed.

Lemma consistent_withGameState m roomId room gs :
  consistent m → rooms m !! roomId = Some room →
  consistent (withRoom m roomId (withGameState room gs)).
Proof.
  intros [Hindex Hrooms] Hroom. split; cbn [withRoom rooms addressToRoom].
  - intros k r Hk. destruct (Hindex k r Hk) as (room0 & Hroom0 & Hocc0).
    destruct (decide (r = roomId)) as [-> | Hne].
    + exists (withGameState room gs). split; [apply lookup_insert_eq|].
      cbn. congruence.
    + exists room0. split; [|exact Hocc0]. rewrite lookup_insert_ne; [exact Hroom0 | congruence].
  - intros r room0 Hroom0. destruct (decide (r = roomId)) as [-> | Hne].
    + rewrite lookup_insert_eq in Hroom0. injection Hroom0 as <-.
      exact (Hrooms roomId room Hroom).
    + rewrite lookup_insert_ne in Hroom0 by congruence. exact (Hrooms r room0 Hroom0).
Qed.

Lemma consistent_processPlayerAction roomId action eoa0 m now :
  consistent m → consistent (snd (processPlayerAction roomId action eoa0 m now)).
Proof.
  intros Hm. unfold processPlayerAction.
  destruct (getAddress eoa0) as [k|]; [|exact Hm].
  destruct (rooms m !! roomId) as [room|] eqn:Hroom; [|exact Hm].
  destruct (negb _); [exact Hm|].
  destruct (gameState room) as [gs|]; [|exact Hm].
  destruct (LockBlock.processAction gs action k now) as [[[gs'|error]|e] gs0];
    cbn [snd]; apply consistent_withGameState; assumption.
Qed.

(** X17: the index and the rooms agree in every manager the operations
    build, provided the canonicalizer never returns the empty string and
    [createRoom] is given an id that is not in use.  The empty manager is
    consistent, and [createRoom], [joinRoom], [leaveRoom], [closeRoom] and
    [processPlayerAction] keep a consistent manager consistent: every
    identity of the index is the occupant of an existing room, and every
    occupied room has the connection of its occupant only and is the room
    the index gives for it. *)
Theorem index_and_rooms_stay_consistent :
  (∀ a k, getAddress a = Some k → k ≠ "") →
  consistent createRoomManager
  ∧ ∀ m, consistent m →
      (∀ entryDeposit difficulty roomId pool now,
         rooms m !! roomId = None →
         consistent (snd (createRoom entryDeposit difficulty roomId pool now m)))
      ∧ (∀ roomId eoa0 ws0, consistent (snd (joinRoom roomId eoa0 ws0 m)))
      ∧ (∀ eoa0, consistent (snd (leaveRoom eoa0 m)))
      ∧ (∀ roomId, consistent (closeRoom roomId m))
      ∧ (∀ roomId action eoa0 now,
           consistent (snd (processPlayerAction roomId action eoa0 m now))).
Proof.
  intros Hnonempty. split.
  - split; cbn; intros ? ? Hlook; rewrite lookup_empty in Hlook; discriminate.
  - intros m Hm.
    split; [intros; apply consistent_createRoom; assumption|].
    split; [intros; apply consistent_joinRoom; assumption|].
    split; [intros; apply consistent_leaveRoom; assumption|].
    split; [intros; apply consistent_closeRoom; assumption|].
    intros; apply consistent_processPlayerAction; assumption.
Qed.

End WithEthers.

(** X20: [broadcastToRoom] sends nothing for a room id that is absent, and
    in a consistent manager it sends nothing for a room without occupant
    and, for an occupied room, exactly one message, to the socket of the
    occupant, when that socket is open (readyState 1), and none when it is
    not. *)
Theorem broadcast_reaches_the_occupant_only {Data : Type}
    (readyState : WebSocket → Z) roomId type (data : Data) m :
  (rooms m !! roomId = None → broadcastToRoom readyState roomId type data m = [])
  ∧ (consistent m → ∀ room, rooms m !! roomId = Some room →
       (eoa (player room) = None →
        broadcastToRoom readyState roomId type data m = [])
       ∧ (∀ k, eoa (player room) = Some k →
            ∃ c, connections room !! k = Some c
                 ∧ (readyState (ws c) = 1%Z →
                    broadcastToRoom readyState roomId type data m
                      = [(ws c, (type, data))])
                 ∧ (readyState (ws c) ≠ 1%Z →
                    broadcastToRoom readyState roomId type data m = []))).
Proof.
  split; [intros Habsent; unfold broadcastToRoom; rewrite Habsent; reflexivity|].
  intros [_ Hrooms] room Hroom. specialize (Hrooms roomId room Hroom).
  unfold broadcastToRoom. rewrite Hroom. split.
  - intros Hnone. rewrite Hnone in Hrooms. rewrite Hrooms, map_to_list_empty. reflexivity.
  - intros k Hocc. rewrite Hocc in Hrooms. destruct Hrooms as (_ & Hdom & _).
    apply dom_singleton_inv_L in Hdom as [c Hc]. exists c.
    rewrite Hc, map_to_list_singleton.
    split; [apply lookup_singleton_eq|].
    cbn [fmap list_fmap snd]. rewrite filter_cons, filter_nil.
    split; intros Hstate.
    + rewrite decide_True by exact Hstate. reflexivity.
    + rewrite decide_False by exact Hstate. reflexivity.
Qed.

End RoomOpsFacts.

(** * Properties of the validators *)

Module ValidatorsFacts.
Import Validators.

Local Open Scope Z_scope.

(** A move or an interaction with the given direction, distance, object
    type and value. *)
Lemma existsb_eqb_elem_of (s : string) (l : list string) :
  existsb (String.eqb s) l = true ↔ s ∈ l.
Proof.
  rewrite existsb_exists, list_elem_of_In. split.
  - intros (x & Hin & Heq). apply String.eqb_eq in Heq. subst. exact Hin.
  - intros Hin. exists s. split; [exact Hin | apply String.eqb_refl].
Qed.

(** X21: the tables of the validator are the tables of the engine.  The
    engine answers 'Invalid action type' exactly for the types that are
    not in [validActionTypes]; a move changes the position in some state
    exactly for the directions of [validDirections]; and an interaction
    changes the score in some state exactly for the object types of
    [validObjectTypes]. *)
Theorem validator_tables_are_the_engine_tables :
  (∀ ty gs d,
     LockBlock.dispatch gs {| LockBlock.type := ty; LockBlock.data := d |} = None
     ↔ ty ∉ validActionTypes)
  ∧ (∀ dir,
       dir ∈ validDirections
       ↔ ∃ gs distance gs',
           LockBlock.processMovement gs
             (Some {| LockBlock.direction := Some dir;
                      LockBlock.distance := Some distance;
                      LockBlock.objectType := None; LockBlock.value := None |})
             = Normal gs'
           ∧ LockBlock.position (LockBlock.player gs')
               ≠ LockBlock.position (LockBlock.player gs))
  ∧ (∀ object,
       object ∈ validObjectTypes
       ↔ ∃ gs value gs' argument,
           LockBlock.processInteraction gs
             (Some {| LockBlock.direction := None; LockBlock.distance := None;
                      LockBlock.objectType := Some object;
                      LockBlock.value := Some value |})
             = Normal (gs', argument)
           ∧ LockBlock.score (LockBlock.player gs')
               ≠ LockBlock.score (LockBlock.player gs)).
Proof.
  split; [|split].
  - intros ty gs d. unfold LockBlock.dispatch, validActionTypes. cbn [LockBlock.type].
    destruct (String.eqb_spec ty "move") as [-> | Hmove];
      [split; [discriminate | intros Hno; exfalso; apply Hno; set_solver]|].
    destruct (String.eqb_spec ty "jump") as [-> | Hjump];
      [split; [discriminate | intros Hno; exfalso; apply Hno; set_solver]|].
    destruct (String.eqb_spec ty "interact") as [-> | Hinteract];
      [split; [discriminate | intros Hno; exfalso; apply Hno; set_solver]|].
    destruct (String.eqb_spec ty "complete_chunk") as [-> | Hcomplete];
      [split; [discriminate | intros Hno; exfalso; apply Hno; set_solver]|].
    destruct (String.eqb_spec ty "lose_life") as [-> | Hlose];
      [split; [discriminate | intros Hno; exfalso; apply Hno; set_solver]|].
    split; [intros _ | reflexivity].
    intros Hin. repeat (apply elem_of_cons in Hin as [-> | Hin]; [contradiction|]).
    apply elem_of_nil in Hin. exact Hin.
  - intros dir. unfold validDirections. split.
    + intros Hin.
      exists (LockBlock.withPlayer Sample.freshGame
                (LockBlock.withPosition (LockBlock.player Sample.freshGame)
                   {| LockBlock.x := 1; LockBlock.y := 1 |})), 1.
      eexists. split; [reflexivity|].
      repeat (apply elem_of_cons in Hin as [-> | Hin]; [cbn; discriminate|]).
      apply elem_of_nil in Hin. contradiction.
    + intros (gs & distance & gs' & Hmove & Hmoved).
      cbn in Hmove. injection Hmove as <-. cbn in Hmoved.
      destruct (String.eqb_spec dir "left") as [-> | _]; [set_solver|].
      destruct (String.eqb_spec dir "right") as [-> | _]; [set_solver|].
      destruct (String.eqb_spec dir "up") as [-> | _]; [set_solver|].
      destruct (String.eqb_spec dir "down") as [-> | _]; [set_solver|].
      contradiction.
  - intros object. unfold validObjectTypes. split.
    + intros Hin. exists Sample.freshGame, 1.
      eexists _, _. split; [reflexivity|].
      repeat (apply elem_of_cons in Hin as [-> | Hin]; [cbn; discriminate|]).
      apply elem_of_nil in Hin. contradiction.
    + intros (gs & value & gs' & argument & Hrun & Hscore).
      cbn in Hrun. injection Hrun as <- _. cbn in Hscore.
      destruct (String.eqb_spec object "coin") as [-> | _]; [set_solver|].
      destruct (String.eqb_spec object "gem") as [-> | _]; [set_solver|].
      destruct (String.eqb_spec object "treasure") as [-> | _]; [set_solver|].
      destruct (String.eqb_spec object "powerup") as [-> | _]; [set_solver|].
      contradiction.
Qed.

End ValidatorsFacts.

(** * The engine on concrete inputs *)

Module LockBlockExamples.
Import Amount LockBlock.

Local Open Scope Z_scope.
Local Existing Instance Sample.ethers.

Example createGame_alice :
  createGame Sample.alice None None 0 = Normal Sample.freshGame.
Proof. vm_compute. reflexivity. Qed.

(** The scenarios of the specification: a coin worth 10 and three
    completed chunks give the score 310 and the result win; three lost
    lives give the result lose. *)
Example coin_then_three_chunks :
  ∃ gs',
    run Sample.freshGame
      [Client.interact "coin" 10; Client.completeChunk; Client.completeChunk;
       Client.completeChunk] Sample.alice 1 = Normal (Success gs')
    ∧ score (player gs') = 310
    ∧ forallb completed (chunks gs') = true
    ∧ currentChunk gs' = 2%nat
    ∧ gameResult gs' = Some "win".
Proof. eexists. split; [vm_compute; reflexivity|]. repeat split. Qed.

Example three_lives_lost :
  ∃ gs',
    run Sample.freshGame [Client.loseLife; Client.loseLife; Client.loseLife]
      Sample.alice 1 = Normal (Success gs')
    ∧ lives (player gs') = 0
    ∧ gameResult gs' = Some "lose".
Proof. eexists. split; [vm_compute; reflexivity|]. repeat split. Qed.

Example action_after_the_end_is_rejected :
  run Sample.freshGame
    [Client.loseLife; Client.loseLife; Client.loseLife; Client.move ("right", 1)]
    Sample.alice 1 = Normal (Failure "Game is already over").
Proof. vm_compute. reflexivity. Qed.

Example unknown_action_is_rejected :
  fst (processAction Sample.freshGame {| type := "fly"; data := None |} Sample.alice 1)
    = Normal (Failure "Invalid action type").
Proof. vm_compute. reflexivity. Qed.

Example stranger_is_rejected :
  fst (processAction Sample.freshGame Client.completeChunk Sample.bob 1)
    = Normal (Failure "Not your game").
Proof. vm_compute. reflexivity. Qed.

(** An interaction writes the score into the caller's object as well; a
    move leaves the caller's object alone. *)
Example interaction_writes_through :
  score (player (snd (processAction Sample.freshGame (Client.interact "gem" 4)
                        Sample.alice 1))) = 8
  ∧ snd (processAction Sample.freshGame (Client.move ("down", 4)) Sample.alice 1)
      = Sample.freshGame.
Proof. split; vm_compute; reflexivity. Qed.

(** C1, as the specification words it, fails.  Completing the last chunk
    of [Sample.noLivesLastChunk] is one transition after which no life is
    left and every chunk is completed; the verdict is win, not lose. *)
Lemma tie_break_is_not_lose :
  ∃ gs',
    fst (processAction Sample.noLivesLastChunk Client.completeChunk Sample.alice 7)
      = Normal (Success gs')
    ∧ isGameOver Sample.noLivesLastChunk = false
    ∧ lives (player gs') = 0
    ∧ forallb completed (chunks gs') = true
    ∧ gameResult gs' = Some "win"
    ∧ gameResult gs' ≠ Some "lose".
Proof.
  eexists. split; [vm_compute; reflexivity|].
  repeat split; try reflexivity. discriminate.
Qed.

Lemma both_terminal_conditions_report_win_witness :
  ∃ gs',
    fst (processAction Sample.noLivesLastChunk Client.completeChunk Sample.alice 7)
      = Normal (Success gs')
    ∧ isGameOver gs' = true ∧ gameResult gs' = Some "win".
Proof.
  eexists. split; [vm_compute; reflexivity|].
  destruct (LockBlockFacts.both_terminal_conditions_report_win (H := Sample.ethers)
              Sample.noLivesLastChunk Client.completeChunk Sample.alice 7 _
              ltac:(vm_compute; reflexivity) ltac:(vm_compute; discriminate))
    as (Hover & Hwin & _).
  split; [exact Hover | apply Hwin; vm_compute; reflexivity].
Defined.

Lemma processAction_after_game_over_witness :
  processAction Sample.lostGame (Client.move ("right", 5)) Sample.alice 9
    = (Normal (Failure "Game is already over"), Sample.lostGame).
Proof.
  destruct (LockBlockFacts.processAction_after_game_over
              Sample.lostGame (Client.move ("right", 5)) Sample.alice 9 eq_refl)
    as [Hstate Hresult].
  rewrite (surjective_pairing (processAction _ _ _ _)), Hstate, Hresult;
    [reflexivity | vm_compute; eauto].
Defined.



Lemma createGame_initial_state_and_win_witness :
  ∃ gs0,
    createGame Sample.alice (Some (lit 5 2)) None 0 = Normal gs0
    ∧ lives (player gs0) = 3
    ∧ (∃ gs',
         run gs0 [Client.interact "coin" 10; Client.completeChunk; Client.completeChunk]
           Sample.alice 0 = Normal (Success gs')
         ∧ isGameOver gs' = false ∧ gameResult gs' = None)
    ∧ (∃ gs',
         run gs0 ([Client.interact "coin" 10; Client.completeChunk; Client.completeChunk]
                    ++ [Client.completeChunk])
           Sample.alice 0 = Normal (Success gs')
         ∧ isGameOver gs' = true ∧ gameResult gs' = Some "win").
Proof.
  destruct (LockBlockFacts.createGame_initial_state_and_win
              Sample.alice (Some (lit 5 2)) None 0)
    as (gs0 & Hnew & Hlives & _ & _ & _ & _ & _ & _ & _ & Hplay & Hwin);
    [vm_compute; eauto|].
  assert (Forall Client.playable
            [Client.interact "coin" 10; Client.completeChunk; Client.completeChunk])
    as Hactions.
  { repeat (apply Forall_cons; split; [unfold Client.playable; cbn; naive_solver|]).
    constructor. }
  exists gs0. split; [exact Hnew|]. split; [exact Hlives|]. split.
  - apply Hplay; [exact Hactions | cbn; lia].
  - apply Hwin; [exact Hactions | reflexivity | reflexivity].
Defined.

End LockBlockExamples.

(** * The reward pool on concrete inputs *)

Module RewardPoolExamples.
Import Amount RewardPool.

Local Open Scope Z_scope.

(** C2, as the specification words it, fails.  A pool that holds '0.1'
    after a first deposit receives '0.2': the total it stores does not
    read as the decimal sum 0.1 + 0.2 = 0.3 does, it reads as
    0.30000000000000004. *)
Lemma deposit_drifts_from_decimal_sum :
  let pool := Sample.poolWithTenth in
  let pool' := snd (addToRewardPool (lit 2 1) Sample.alice pool 2) in
  parseFloat (totalAmount pool) = parseFloat (lit 1 1)
  ∧ ltb zero (parseFloat (lit 2 1)) = true
  ∧ decimalAdd {| digits := 1; scale := 1 |} {| digits := 2; scale := 1 |}
      = {| digits := 30; scale := 2 |}
  ∧ parseFloat (totalAmount pool') ≠ parseFloat (lit 30 2)
  ∧ parseFloat (totalAmount pool') ≠ parseFloat (lit 3 1)
  ∧ parseFloat (totalAmount pool') = parseFloat (lit 30000000000000004 17).
Proof.
  cbv zeta. repeat split; try (vm_compute; reflexivity); vm_compute; discriminate.
Qed.

Lemma deposit_stores_binary64_sum_witness :
  parseFloat
    (totalAmount (snd (addToRewardPool (lit 5 2) Sample.alice (initialPool 0) 1)))
    = parseFloat (lit 5 2)
  ∧ fst (cycles [lit 5 2; lit 1 1; lit 2 1] Sample.alice (initialPool 0) 1)
      = [Withdrawn (toString (parseFloat (lit 5 2))) (lit 0 0);
         Withdrawn (toString (parseFloat (lit 1 1))) (lit 0 0);
         Withdrawn (toString (parseFloat (lit 2 1))) (lit 0 0)]
  ∧ totalAmount (snd (cycles [lit 5 2; lit 1 1; lit 2 1] Sample.alice (initialPool 0) 1))
      = lit 0 0.
Proof.
  destruct (RewardPoolFacts.deposit_stores_binary64_sum
              (lit 5 2) Sample.alice (initialPool 0) 1)
    as (_ & _ & _ & _ & Hexact & Hcycles).
  split; [apply Hexact; [reflexivity | vm_compute; reflexivity]|].
  apply Hcycles; [reflexivity|].
  repeat (constructor; [vm_compute; reflexivity|]). constructor.
Defined.

Lemma withdraw_empty_fails_else_pays_all_witness :
  withdrawFromRewardPool Sample.alice (initialPool 0) 3
    = (WithdrawFailed "No funds available in reward pool" (lit 0 0), initialPool 0)
  ∧ withdrawFromRewardPool Sample.alice Sample.poolWithTenth 3
      = (Withdrawn (totalAmount Sample.poolWithTenth) (lit 0 0),
         {| totalAmount := lit 0 0; totalGames := 2; totalWins := 1;
            totalLosses := 1; lastUpdated := 3 |}).
Proof.
  split.
  - apply (RewardPoolFacts.withdraw_empty_fails_else_pays_all
             Sample.alice (initialPool 0) 3).
    vm_compute; reflexivity.
  - apply (RewardPoolFacts.withdraw_empty_fails_else_pays_all
             Sample.alice Sample.poolWithTenth 3).
    vm_compute; reflexivity.
Defined.

Lemma counters_balanced_in_every_reachable_pool_witness :
  let pool :=
    perform (Withdraw Sample.bob)
      (perform (Deposit (lit 5 2) Sample.alice) (initialPool 0) 1) 2 in
  reachable pool ∧ totalGames pool = 2 ∧ balanced pool.
Proof.
  cbv zeta.
  assert (reachable
            (perform (Withdraw Sample.bob)
               (perform (Deposit (lit 5 2) Sample.alice) (initialPool 0) 1) 2))
    as Hreach by (do 2 apply reachable_perform; apply reachable_initial).
  split; [exact Hreach|]. split; [vm_compute; reflexivity|].
  destruct RewardPoolFacts.counters_balanced_in_every_reachable_pool
    as (_ & _ & Hall).
  exact (Hall _ Hreach).
Defined.

End RewardPoolExamples.

(** * The room manager on concrete inputs *)

Module RoomManagerExamples.
Import Amount RoomManager.

Lemma joinRoom_rejects_without_mutation_witness :
  let m := Sample.twoRooms in
  let m1 := snd (joinRoom (H := Sample.ethers) "room-1" Sample.alice 7 m) in
  joinRoom (H := Sample.ethers) "room-9" Sample.bob 8 m
    = (Normal (JoinFailed "Room not found"), m)
  ∧ joinRoom (H := Sample.ethers) "room-1" Sample.bob 8 m1
      = (Normal (JoinFailed "Room is already occupied"), m1)
  ∧ joinRoom (H := Sample.ethers) "room-2" Sample.alice 9 m1
      = (Normal (JoinFailed "Player already in another room"), m1)
  ∧ addressToRoom m1 !! Sample.aliceKey = Some "room-1"
  ∧ snd (joinRoom (H := Sample.ethers) "room-1" "not an address" 7 m) = m.
Proof.
  cbv zeta.
  split.
  { destruct (RoomManagerFacts.joinRoom_rejects_without_mutation
                (H := Sample.ethers) "room-9" Sample.bob 8 Sample.twoRooms)
      as [_ Hcases].
    destruct (Hcases Sample.bob) as (_ & Habsent & _); [vm_compute; reflexivity|].
    apply Habsent; vm_compute; reflexivity. }
  split.
  { destruct (RoomManagerFacts.joinRoom_rejects_without_mutation
                (H := Sample.ethers) "room-1" Sample.bob 8
                (snd (joinRoom (H := Sample.ethers) "room-1" Sample.alice 7
                        Sample.twoRooms))) as [_ Hcases].
    destruct (Hcases Sample.bob) as (_ & _ & Hocc & _); [vm_compute; reflexivity|].
    eapply Hocc; vm_compute; reflexivity. }
  destruct (RoomManagerFacts.joinRoom_rejects_without_mutation
              (H := Sample.ethers) "room-1" Sample.alice 7 Sample.twoRooms)
    as [_ Hcases].
  destruct (Hcases Sample.aliceKey) as (_ & _ & _ & Hjoined);
    [vm_compute; reflexivity|].
  edestruct Hjoined as [Hpoint Hagain]; [vm_compute; reflexivity|].
  split; [apply (Hagain "room-2" 9)|].
  split; [exact Hpoint|].
  destruct (RoomManagerFacts.joinRoom_rejects_without_mutation
              (H := Sample.ethers) "room-1" "not an address" 7 Sample.twoRooms)
    as [Hsame _].
  apply Hsame. intros info. vm_compute. discriminate.
Defined.


End RoomManagerExamples.
